(** * Alias injection for Avro schemas: a shallow embedding of [app.py]

    The program reads a JSON document, walks it as an Avro schema and adds a
    snake_case alias to every record and every field it reaches.  The Python
    code mutates the decoded tree in place; here every function returns the
    object it was given in the state the call leaves it in, paired with the
    exception the call raised, if any.  The input is a tree as [json.load]
    builds it: no object is reachable along two paths.  The recursion limit
    of the interpreter is not modelled.

    The strings of the tree are strings of 8-bit characters, read as ASCII:
    the names of an Avro schema are ASCII, and on ASCII strings [lower] below
    is [str.lower].  On other strings [str.lower] is not written out; what is
    said of [to_snake_case] on every Python string is said of
    [to_snake_case_str], which works on code points and takes [str.lower] as
    it is given. *)

From Stdlib Require Import List String Ascii Bool Arith ZArith Lia.
Import ListNotations.
Local Open Scope string_scope.
Local Open Scope list_scope.
#[local] Arguments String.eqb : simpl never.
#[local] Set Warnings "-register-all".

(** ** The decoded JSON document *)

(** What [json.load] returns.  A number is kept as an integer: no function of
    the program looks at one. *)
Unset Elimination Schemes.
Inductive json : Type :=
| JNull
| JBool (b : bool)
| JNum (n : Z)
| JStr (s : string)
| JList (l : list json)
| JDict (d : list (string * json)).
Set Elimination Schemes.

(** A Python [dict]: the entries in insertion order. *)
Definition dict := list (string * json).

(** The exceptions the traversal can raise. *)
Inductive exn : Type :=
| KeyError (k : string)
| TypeError
| AttributeError.

(** An object after a call, and the exception the call ended with. *)
Definition outcome (A : Type) : Type := (A * option exn)%type.

(** ** Dictionary access *)

(** [d.get(k)]: the value of the first entry under [k]. *)
Fixpoint get (k : string) (d : dict) : option json :=
  match d with
  | [] => None
  | (k', v) :: r => if String.eqb k k' then Some v else get k r
  end.

(** [d[k] = v]: an existing entry keeps its place, a new key goes last. *)
Fixpoint set (k : string) (v : json) (d : dict) : dict :=
  match d with
  | [] => [(k, v)]
  | (k', v') :: r =>
      if String.eqb k k' then (k', v) :: r else (k', v') :: set k v r
  end.

(** [get] in continuation form, so that a recursive function can be applied
    to the value found ([dict_case_get] relates the two). *)
Definition dict_case {R : Type} (k : string) (absent : R) (present : json -> R)
  : dict -> R :=
  fix look (d : dict) : R :=
    match d with
    | [] => absent
    | (k', v) :: r => if String.eqb k k' then present v else look r
    end.

(** A [for] loop over a list whose body mutates the element it is given: the
    loop stops at the first exception and leaves the later elements as they
    were. *)
Definition for_each (body : json -> outcome json) : list json -> outcome (list json) :=
  fix loop (l : list json) : outcome (list json) :=
    match l with
    | [] => ([], None)
    | x :: r =>
        match body x with
        | (x', Some e) => (x' :: r, Some e)
        | (x', None) => let (r', e) := loop r in (x' :: r', e)
        end
    end.

(** ** to_snake_case *)

Definition is_upper (c : ascii) : bool :=
  ((65 <=? nat_of_ascii c) && (nat_of_ascii c <=? 90))%nat.

(** [str.lower()] on one ASCII character: a letter of [A-Z] becomes the
    letter of [a-z], any other ASCII character stays. *)
Definition lower_char (c : ascii) : ascii :=
  if is_upper c then ascii_of_nat (nat_of_ascii c + 32) else c.

(** [str.lower()] on an ASCII string.  On a string with other characters
    [str.lower()] does more (it lowercases the capitals outside ASCII, may
    return a longer string, and looks at the context of a sigma), which this
    function does not follow. *)
Fixpoint lower (s : string) : string :=
  match s with
  | EmptyString => EmptyString
  | String c r => String (lower_char c) (lower r)
  end.

(** [re.sub(r'(?<!^)(?=[A-Z])', '_', s)]: the pattern matches the empty string
    at every position that is not the start of the string and is followed by a
    letter of [A-Z]; [at_start] tells whether the scan is at position 0. *)
Fixpoint sub_underscore (at_start : bool) (s : string) : string :=
  match s with
  | EmptyString => EmptyString
  | String c r =>
      if negb at_start && is_upper c
      then String "_" (String c (sub_underscore false r))
      else String c (sub_underscore false r)
  end.

Definition to_snake_case (name : string) : string :=
  lower (sub_underscore true name).

(** [s[n:]] *)
Fixpoint drop (n : nat) (s : string) : string :=
  match n, s with
  | S n', String _ r => drop n' r
  | _, _ => s
  end.

(** [str.removeprefix(prefix)]: [s[len(prefix):]] when [s] starts with
    [prefix], and [s] itself otherwise. *)
Definition removeprefix (prefix s : string) : string :=
  if String.prefix prefix s then drop (String.length prefix) s else s.

(** ** The alias adders *)

(** The last four lines of both adders: [obj["aliases"].append(a)] when the
    key is there, [obj["aliases"] = [a]] when it is not.  Only a list has
    [append]. *)
Definition append_alias (a : string) (obj : dict) : outcome dict :=
  match get "aliases" obj with
  | Some (JList l) => (set "aliases" (JList (l ++ [JStr a])) obj, None)
  | Some _ => (obj, Some AttributeError)
  | None => (set "aliases" (JList [JStr a]) obj, None)
  end.

(** Only a [str] has [removeprefix]. *)
Definition add_alias_to_record (schema : dict) (prepend_subject_name : string)
  : outcome dict :=
  match get "name" schema with
  | None => (schema, None)
  | Some (JStr name) =>
      append_alias (to_snake_case (removeprefix prepend_subject_name name)) schema
  | Some _ => (schema, Some AttributeError)
  end.

(** [field["name"]] raises [KeyError] on a dict without the key and
    [TypeError] on anything that is not a dict; [re.sub] raises [TypeError] on
    a name that is not a string. *)
Definition add_alias_to_field (field : json) : outcome json :=
  match field with
  | JDict f =>
      match get "name" f with
      | None => (field, Some (KeyError "name"))
      | Some (JStr name) =>
          let (f', e) := append_alias (to_snake_case name) f in (JDict f', e)
      | Some _ => (field, Some TypeError)
      end
  | _ => (field, Some TypeError)
  end.

(** ** The traversal *)

(** The body of the loop over a union:
    [if isinstance(t, dict): traverse_schema(t, ...)]. *)
Definition traverse_member (traverse : json -> outcome json) (t : json)
  : outcome json :=
  match t with
  | JDict _ => traverse t
  | _ => (t, None)
  end.

(** The body of [_traverse_type], over the traverser it calls. *)
Definition traverse_type_with (traverse : json -> outcome json) (type_obj : json)
  : outcome json :=
  match type_obj with
  | JDict _ => traverse type_obj
  | JList l =>
      let (l', e) := for_each (traverse_member traverse) l in (JList l', e)
  | _ => (type_obj, None)
  end.

(** The body of the loop over [fields], over the type dispatch it calls.
    [field["type"]] is looked up in the field as the loop received it:
    [add_alias_to_field] writes the [aliases] entry only. *)
Definition traverse_field (traverse_type : json -> outcome json) (field : json)
  : outcome json :=
  match add_alias_to_field field with
  | (field1, Some e) => (field1, Some e)
  | (field1, None) =>
      match field1, field with
      | JDict f1, JDict f =>
          dict_case "type" (field1, Some (KeyError "type"))
            (fun field_type =>
               let (t', e) := traverse_type field_type in
               (JDict (set "type" t' f1), e)) f
      | _, _ => (field1, None)
      end
  end.

(** [schema.get] raises [AttributeError] on anything that is not a dict.  A
    [for] over [fields] raises [TypeError] when the value is no list, unless
    it is an empty dict or an empty string, over which the loop runs zero
    times; over a dict or a string that is not empty the first element is a
    string, on which [add_alias_to_field] raises [TypeError].

    The recursion is on the tree the call received, so [fields] and [items]
    are looked up in [d]; [add_alias_to_record] writes the [aliases] entry
    only, and [traverse_schema_eq] states the function with the lookups made
    after it, as the source makes them. *)
Fixpoint traverse_schema (schema : json) (prepend_subject_name : string)
  {struct schema} : outcome json :=
  let traverse_type :=
    traverse_type_with (fun s => traverse_schema s prepend_subject_name) in
  match schema with
  | JDict d =>
      match get "type" d with
      | Some (JStr schema_type) =>
          if schema_type =? "record" then
            match add_alias_to_record d prepend_subject_name with
            | (d1, Some e) => (JDict d1, Some e)
            | (d1, None) =>
                dict_case "fields" (JDict d1, None)
                  (fun fields =>
                     match fields with
                     | JList fs =>
                         let (fs', e) := for_each (traverse_field traverse_type) fs in
                         (JDict (set "fields" (JList fs') d1), e)
                     | JDict [] | JStr "" => (JDict d1, None)
                     | _ => (JDict d1, Some TypeError)
                     end) d
            end
          else if schema_type =? "array" then
            dict_case "items" (schema, None)
              (fun items =>
                 let (items', e) := traverse_type items in
                 (JDict (set "items" items' d), e)) d
          else (schema, None)
      | _ => (schema, None)
      end
  | _ => (schema, Some AttributeError)
  end.

Definition _traverse_type (type_obj : json) (prepend_subject_name : string)
  : outcome json :=
  traverse_type_with (fun s => traverse_schema s prepend_subject_name) type_obj.

Definition add_aliases_to_avro_schema (schema : json) (prepend_subject_name : string)
  : outcome json :=
  traverse_schema schema prepend_subject_name.

(** The three functions once more, written in the order of the source: each
    lookup is made in the object as the earlier statements left it.
    [traverse_field_eq], [traverse_schema_eq] and [_traverse_type_eq] show
    that the functions above satisfy these equations. *)
Definition traverse_field_body (traverse_type : json -> outcome json) (field : json)
  : outcome json :=
  match add_alias_to_field field with
  | (field1, Some e) => (field1, Some e)
  | (field1, None) =>
      match field1 with
      | JDict f1 =>
          match get "type" f1 with
          | None => (field1, Some (KeyError "type"))
          | Some field_type =>
              let (t', e) := traverse_type field_type in
              (JDict (set "type" t' f1), e)
          end
      | _ => (field1, None)
      end
  end.

Definition traverse_schema_body (traverse_type : json -> outcome json)
  (schema : json) (prepend_subject_name : string) : outcome json :=
  match schema with
  | JDict d =>
      match get "type" d with
      | Some (JStr schema_type) =>
          if schema_type =? "record" then
            match add_alias_to_record d prepend_subject_name with
            | (d1, Some e) => (JDict d1, Some e)
            | (d1, None) =>
                match get "fields" d1 with
                | None => (JDict d1, None)
                | Some (JList fs) =>
                    let (fs', e) :=
                      for_each (traverse_field_body traverse_type) fs in
                    (JDict (set "fields" (JList fs') d1), e)
                | Some (JDict []) | Some (JStr "") => (JDict d1, None)
                | Some _ => (JDict d1, Some TypeError)
                end
            end
          else if schema_type =? "array" then
            match get "items" d with
            | None => (schema, None)
            | Some items =>
                let (items', e) := traverse_type items in
                (JDict (set "items" items' d), e)
            end
          else (schema, None)
      | _ => (schema, None)
      end
  | _ => (schema, Some AttributeError)
  end.

(** Number of nodes of a tree. *)
Fixpoint size (v : json) : nat :=
  match v with
  | JList l => S (list_sum (map size l))
  | JDict d => S (list_sum (map (fun kv => size (snd kv)) d))
  | _ => 1
  end.

(** ** Vocabulary of the properties *)

(** Number of characters of [s] that satisfy [f]. *)
Fixpoint count_chars (f : ascii -> bool) (s : string) : nat :=
  match s with
  | EmptyString => 0
  | String c r => (if f c then 1 else 0) + count_chars f r
  end.

(** Every character of [s] satisfies [f]. *)
Fixpoint all_chars (f : ascii -> bool) (s : string) : bool :=
  match s with
  | EmptyString => true
  | String c r => f c && all_chars f r
  end.

Definition is_separator (c : ascii) : bool := Ascii.eqb c "_".

Definition is_lower (c : ascii) : bool :=
  ((97 <=? nat_of_ascii c) && (nat_of_ascii c <=? 122))%nat.

Definition is_digit (c : ascii) : bool :=
  ((48 <=? nat_of_ascii c) && (nat_of_ascii c <=? 57))%nat.

Definition is_alnum (c : ascii) : bool :=
  is_upper c || is_lower c || is_digit c.

Definition not_upper (c : ascii) : bool := negb (is_upper c).

(** The uppercase letters of [s] at positions other than 0. *)
Definition internal_uppers (s : string) : nat :=
  match s with
  | EmptyString => 0
  | String _ r => count_chars is_upper r
  end.

(** The entries of the [aliases] list of an object, none when it has no such
    list. *)
Definition alias_list (obj : dict) : list json :=
  match get "aliases" obj with
  | Some (JList l) => l
  | _ => []
  end.

(** The data model's [aliases]: absent, or an ordered sequence. *)
Definition aliases_ok (obj : dict) : bool :=
  match get "aliases" obj with
  | None | Some (JList _) => true
  | Some _ => false
  end.

(** The data model's [name]: absent, or a string. *)
Definition name_ok (obj : dict) : bool :=
  match get "name" obj with
  | None | Some (JStr _) => true
  | Some _ => false
  end.

Definition is_dict (v : json) : bool :=
  match v with
  | JDict _ => true
  | _ => false
  end.

(** The schema of the end-to-end example, before and after. *)
Definition order_schema : json :=
  JDict
    [("type", JStr "record"); ("name", JStr "UserOrder");
     ("fields",
      JList
        [JDict [("name", JStr "orderId"); ("type", JStr "string")];
         JDict
           [("name", JStr "lineItems");
            ("type",
             JDict
               [("type", JStr "array");
                ("items",
                 JDict
                   [("type", JStr "record"); ("name", JStr "LineItem");
                    ("fields",
                     JList
                       [JDict [("name", JStr "skuCode");
                               ("type", JStr "string")]])])])]])].

Definition order_schema_aliased : json :=
  JDict
    [("type", JStr "record"); ("name", JStr "UserOrder");
     ("fields",
      JList
        [JDict [("name", JStr "orderId"); ("type", JStr "string");
                ("aliases", JList [JStr "order_id"])];
         JDict
           [("name", JStr "lineItems");
            ("type",
             JDict
               [("type", JStr "array");
                ("items",
                 JDict
                   [("type", JStr "record"); ("name", JStr "LineItem");
                    ("fields",
                     JList
                       [JDict [("name", JStr "skuCode");
                               ("type", JStr "string");
                               ("aliases", JList [JStr "sku_code"])]]);
                    ("aliases", JList [JStr "line_item"])])]);
            ("aliases", JList [JStr "line_items"])]]);
     ("aliases", JList [JStr "order"])].

(** The entries of an object before and after a run that touches nothing but
    aliases: the keys are the same, in the same order; an [aliases] list may
    have got new entries at its end; the value under another key may have
    changed as [R] allows. *)
Inductive entries_grow (R : json -> json -> Prop) : dict -> dict -> Prop :=
| eg_nil : entries_grow R [] []
| eg_same kv r r' :
    entries_grow R r r' -> entries_grow R (kv :: r) (kv :: r')
| eg_inside k v v' r r' :
    k <> "aliases" -> R v v' -> entries_grow R r r' ->
    entries_grow R ((k, v) :: r) ((k, v') :: r')
| eg_append l extra r r' :
    entries_grow R r r' ->
    entries_grow R (("aliases", JList l) :: r)
      (("aliases", JList (l ++ map JStr extra)) :: r').

(** A tree before and after such a run: a scalar is the same, a list has the
    same length and its members correspond in order, an object has the
    entries it had and at most one new entry, an [aliases] list, after them. *)
Inductive only_aliases_grow : json -> json -> Prop :=
| oag_same v : only_aliases_grow v v
| oag_list l l' :
    Forall2 only_aliases_grow l l' -> only_aliases_grow (JList l) (JList l')
| oag_dict d d' :
    entries_grow only_aliases_grow d d' -> only_aliases_grow (JDict d) (JDict d')
| oag_new d d' extra :
    get "aliases" d = None -> entries_grow only_aliases_grow d d' ->
    only_aliases_grow (JDict d)
      (JDict (d' ++ [("aliases", JList (map JStr extra))])).

(** The entries of an object other than [aliases], with [f] applied to their
    values. *)
Definition drop_aliases (f : json -> json) : dict -> dict :=
  fix entries (d : dict) : dict :=
    match d with
    | [] => []
    | (k, w) :: r =>
        if k =? "aliases" then entries r else (k, f w) :: entries r
    end.

(** A tree with every [aliases] entry of every object taken out. *)
Fixpoint without_aliases (v : json) : json :=
  match v with
  | JList l => JList (map without_aliases l)
  | JDict d => JDict (drop_aliases without_aliases d)
  | _ => v
  end.

(** ** Places in a tree *)

Inductive step : Type :=
| Key (k : string)
| Index (i : nat).

Definition path := list step.

(** The node a path leads to. *)
Fixpoint node_at (pi : path) (v : json) : option json :=
  match pi with
  | [] => Some v
  | Key k :: pi' =>
      match v with
      | JDict d =>
          match get k d with
          | Some w => node_at pi' w
          | None => None
          end
      | _ => None
      end
  | Index i :: pi' =>
      match v with
      | JList l =>
          match nth_error l i with
          | Some w => node_at pi' w
          | None => None
          end
      | _ => None
      end
  end.

(** [schema_at s pi w]: [w] is the schema node at place [pi] of [s], reached
    from [s] through the [type] of a field of a record or the [items] of an
    array, directly or as a member of a union.  These are the nodes a run on
    [s] calls [traverse_schema] with, when no exception stops it before. *)
Inductive schema_at : json -> path -> json -> Prop :=
| sa_here s : schema_at s [] s
| sa_field d fs i f t pi w :
    get "type" d = Some (JStr "record") ->
    get "fields" d = Some (JList fs) ->
    nth_error fs i = Some (JDict f) ->
    get "type" f = Some t ->
    type_at t pi w ->
    schema_at (JDict d) (Key "fields" :: Index i :: Key "type" :: pi) w
| sa_items d t pi w :
    get "type" d = Some (JStr "array") ->
    get "items" d = Some t ->
    type_at t pi w ->
    schema_at (JDict d) (Key "items" :: pi) w
with type_at : json -> path -> json -> Prop :=
| ta_dict d pi w : schema_at (JDict d) pi w -> type_at (JDict d) pi w
| ta_member l j d pi w :
    nth_error l j = Some (JDict d) ->
    schema_at (JDict d) pi w ->
    type_at (JList l) (Index j :: pi) w.

Scheme schema_at_mut := Minimality for schema_at Sort Prop
  with type_at_mut := Minimality for type_at Sort Prop.

(** A record of the schema [s], and the place it is at. *)
Definition record_at (s : json) (pi : path) (d : dict) : Prop :=
  schema_at s pi (JDict d) /\ get "type" d = Some (JStr "record").

(** A field of a record of the schema [s], and the place it is at. *)
Definition field_at (s : json) (pi : path) (f : dict) : Prop :=
  exists pi0 d fs i,
    record_at s pi0 d
    /\ get "fields" d = Some (JList fs)
    /\ nth_error fs i = Some (JDict f)
    /\ pi = pi0 ++ [Key "fields"; Index i].

(** The [aliases] list of the object at a place. *)
Definition aliases_at (pi : path) (s : json) : option (list json) :=
  match node_at pi s with
  | Some (JDict d) =>
      match get "aliases" d with
      | Some (JList l) => Some l
      | _ => None
      end
  | _ => None
  end.

(** A [fields] value the loop runs over zero times: no key (the default
    [[]]), an empty object or an empty string. *)
Definition fields_empty (d : dict) : bool :=
  match get "fields" d with
  | None | Some (JDict []) | Some (JStr "") => true
  | _ => false
  end.

(** The data model's [fields]: absent, or a sequence of objects. *)
Definition fields_ok (obj : dict) : bool :=
  match get "fields" obj with
  | None => true
  | Some (JList fs) => forallb is_dict fs
  | Some _ => false
  end.

(** A document in which the values that are present have the types of the
    data model: in every object a [name] is a string, [aliases] is a list and
    [fields] is a list of objects.  Nothing is said of the keys that are
    missing. *)
Fixpoint well_typed (v : json) : bool :=
  match v with
  | JList l => forallb well_typed l
  | JDict d =>
      name_ok d && aliases_ok d && fields_ok d
      && forallb (fun kv => well_typed (snd kv)) d
  | _ => true
  end.

(** Whether a string begins with a letter of [A-Z]. *)
Definition starts_upper (s : string) : bool :=
  match s with
  | EmptyString => false
  | String c _ => is_upper c
  end.

(** A string without the characters that satisfy [f]. *)
Fixpoint remove_chars (f : ascii -> bool) (s : string) : string :=
  match s with
  | EmptyString => EmptyString
  | String c r => if f c then remove_chars f r else String c (remove_chars f r)
  end.

(** Whether a run on the object [d] adds an [aliases] key to it: [d] is a
    record with a string [name] and no [aliases]. *)
Definition new_aliases_key (d : dict) : bool :=
  match get "type" d, get "name" d, get "aliases" d with
  | Some (JStr t), Some (JStr _), None => t =? "record"
  | _, _, _ => false
  end.

(** A tree as Python holds it: in every object of the tree each key occurs
    once. *)
Fixpoint unique_keys (v : json) : Prop :=
  match v with
  | JList l => fold_right (fun x rest => unique_keys x /\ rest) True l
  | JDict d =>
      NoDup (map fst d)
      /\ fold_right (fun kv rest => unique_keys (snd kv) /\ rest) True d
  | _ => True
  end.

(** [n] calls of [add_aliases_to_avro_schema] on the same object, one after
    the other; an exception ends them. *)
Fixpoint run_times (n : nat) (schema : json) (p : string) : outcome json :=
  match n with
  | 0 => (schema, None)
  | S n' =>
      match add_aliases_to_avro_schema schema p with
      | (schema1, None) => run_times n' schema1 p
      | (schema1, Some e) => (schema1, Some e)
      end
  end.

Definition is_ascii (c : ascii) : bool := (nat_of_ascii c <? 128)%nat.

(** ** [to_snake_case] on every Python string *)

(** A Python [str]: the sequence of its code points. *)
Definition str := list N.

(** The character class [A-Z] of the pattern. *)
Definition is_AZ (c : N) : bool := ((65 <=? c) && (c <=? 90))%N.

(** [re.sub(r'(?<!^)(?=[A-Z])', '_', s)] on code points; 95 is the
    underscore. *)
Fixpoint sub_underscore_str (at_start : bool) (s : str) : str :=
  match s with
  | [] => []
  | c :: r =>
      if negb at_start && is_AZ c
      then 95%N :: c :: sub_underscore_str false r
      else c :: sub_underscore_str false r
  end.

(** [to_snake_case], over the [str.lower] of the interpreter: a function of
    the whole string, which need not work character by character. *)
Definition to_snake_case_str (str_lower : str -> str) (name : str) : str :=
  str_lower (sub_underscore_str true name).

(** [str.lower] as it is on ASCII strings, on code points. *)
Definition ascii_lower_str (s : str) : str :=
  map (fun c => if is_AZ c then (c + 32)%N else c) s.

(** The code points of a string of the tree. *)
Definition code_points (s : string) : str :=
  map N_of_ascii (list_ascii_of_string s).

(** * Properties *)

(** ** Strings *)

Lemma is_upper_lower_char (c : ascii) : is_upper (lower_char c) = false.
Proof.
  destruct c as [[] [] [] [] [] [] [] []]; reflexivity.
Qed.

Lemma lower_char_fixed (c : ascii) : is_upper c = false -> lower_char c = c.
Proof.
  unfold lower_char; intros ->; reflexivity.
Qed.

Lemma is_separator_lower_char (c : ascii) :
  is_separator (lower_char c) = is_separator c.
Proof.
  destruct c as [[] [] [] [] [] [] [] []]; reflexivity.
Qed.

Lemma alnum_not_separator (c : ascii) : is_alnum c = true -> is_separator c = false.
Proof.
  destruct c as [[] [] [] [] [] [] [] []]; simpl; intros H;
    solve [reflexivity | discriminate H].
Qed.

Lemma upper_not_separator (c : ascii) : is_upper c = true -> is_separator c = false.
Proof.
  destruct c as [[] [] [] [] [] [] [] []]; simpl; intros H;
    solve [reflexivity | discriminate H].
Qed.

Lemma lower_no_upper (s : string) : all_chars not_upper (lower s) = true.
Proof.
  induction s as [|c r IH]; simpl; [reflexivity|].
  unfold not_upper at 1; rewrite is_upper_lower_char; exact IH.
Qed.

Lemma lower_fixed (s : string) : all_chars not_upper s = true -> lower s = s.
Proof.
  induction s as [|c r IH]; simpl; [reflexivity|].
  intros H; apply andb_true_iff in H; destruct H as [Hc Hr].
  apply negb_true_iff in Hc.
  rewrite (lower_char_fixed c Hc), (IH Hr); reflexivity.
Qed.

Lemma sub_underscore_fixed (s : string) (b : bool) :
  all_chars not_upper s = true -> sub_underscore b s = s.
Proof.
  revert b; induction s as [|c r IH]; simpl; intros b H; [reflexivity|].
  apply andb_true_iff in H; destruct H as [Hc Hr].
  apply negb_true_iff in Hc; rewrite Hc, andb_false_r, (IH false Hr); reflexivity.
Qed.

Lemma to_snake_case_fixed (s : string) :
  all_chars not_upper s = true -> to_snake_case s = s.
Proof.
  intros H; unfold to_snake_case.
  rewrite (sub_underscore_fixed s true H); apply lower_fixed, H.
Qed.

Lemma count_separators_lower (s : string) :
  count_chars is_separator (lower s) = count_chars is_separator s.
Proof.
  induction s as [|c r IH]; simpl; [reflexivity|].
  rewrite is_separator_lower_char, IH; reflexivity.
Qed.

(** After position 0 every uppercase letter brings one separator, and the
    separators already there stay. *)
Lemma count_separators_sub_underscore (s : string) :
  count_chars is_separator (sub_underscore false s)
  = count_chars is_upper s + count_chars is_separator s.
Proof.
  induction s as [|c r IH]; simpl; [reflexivity|].
  destruct (is_upper c) eqn:Hc; simpl.
  - rewrite (upper_not_separator c Hc), IH; simpl; lia.
  - rewrite IH; lia.
Qed.

Lemma count_separators_to_snake_case (s : string) :
  count_chars is_separator (to_snake_case s)
  = internal_uppers s + count_chars is_separator s.
Proof.
  unfold to_snake_case; rewrite count_separators_lower.
  destruct s as [|c r]; simpl; [reflexivity|].
  rewrite count_separators_sub_underscore; lia.
Qed.

Lemma alnum_no_separators (s : string) :
  all_chars is_alnum s = true -> count_chars is_separator s = 0.
Proof.
  induction s as [|c r IH]; simpl; [reflexivity|].
  intros H; apply andb_true_iff in H; destruct H as [Hc Hr].
  rewrite (alnum_not_separator c Hc), (IH Hr); reflexivity.
Qed.

Lemma all_upper_count (s : string) :
  all_chars is_upper s = true -> count_chars is_upper s = String.length s.
Proof.
  induction s as [|c r IH]; simpl; [reflexivity|].
  intros H; apply andb_true_iff in H; destruct H as [Hc Hr].
  rewrite Hc, (IH Hr); reflexivity.
Qed.

Lemma upper_is_alnum (s : string) :
  all_chars is_upper s = true -> all_chars is_alnum s = true.
Proof.
  induction s as [|c r IH]; simpl; [reflexivity|].
  intros H; apply andb_true_iff in H; destruct H as [Hc Hr].
  rewrite (IH Hr), andb_true_r; unfold is_alnum; rewrite Hc; reflexivity.
Qed.

(** C5: on an identifier of letters and digits, [to_snake_case] returns a
    string with exactly as many separators as the identifier has uppercase
    letters after position 0, and with no uppercase letter; on an
    all-uppercase token of length n that is n-1 separators. *)
Theorem to_snake_case_separators (s : string) :
  all_chars is_alnum s = true ->
  count_chars is_separator (to_snake_case s) = internal_uppers s
  /\ all_chars not_upper (to_snake_case s) = true
  /\ (all_chars is_upper s = true ->
      count_chars is_separator (to_snake_case s) = String.length s - 1).
Proof.
  intros Hs.
  assert (Hk : count_chars is_separator (to_snake_case s) = internal_uppers s).
  { rewrite count_separators_to_snake_case, (alnum_no_separators s Hs); lia. }
  split; [exact Hk|]. split; [apply lower_no_upper|].
  intros Hup; rewrite Hk.
  destruct s as [|c r]; simpl; [reflexivity|].
  simpl in Hup; apply andb_true_iff in Hup; destruct Hup as [_ Hr].
  rewrite (all_upper_count r Hr); lia.
Qed.

Lemma to_snake_case_separators_witness :
  all_chars is_alnum "HTTPServer2" = true
  /\ count_chars is_separator (to_snake_case "HTTPServer2") = 4
  /\ count_chars is_separator (to_snake_case "HTTP") = 3.
Proof.
  split; [reflexivity|]. split.
  - exact (proj1 (to_snake_case_separators "HTTPServer2" eq_refl)).
  - exact (proj2 (proj2 (to_snake_case_separators "HTTP" eq_refl)) eq_refl).
Defined.

(** On ASCII strings [to_snake_case] is idempotent: its result has no
    uppercase letter, and a string without uppercase letters is returned as
    it is. *)
Lemma to_snake_case_idempotent_ascii (s : string) :
  to_snake_case (to_snake_case s) = to_snake_case s.
Proof.
  apply to_snake_case_fixed; unfold to_snake_case; apply lower_no_upper.
Qed.

(** *** Every Python string *)

Lemma is_AZ_N_of_ascii (c : ascii) : is_AZ (N_of_ascii c) = is_upper c.
Proof. destruct c as [[] [] [] [] [] [] [] []]; reflexivity. Qed.

Lemma ascii_lower_N_of_ascii (c : ascii) :
  (if is_AZ (N_of_ascii c) then (N_of_ascii c + 32)%N else N_of_ascii c)
  = N_of_ascii (lower_char c).
Proof. destruct c as [[] [] [] [] [] [] [] []]; reflexivity. Qed.

(** On the strings of the tree, [to_snake_case_str] with the ASCII [lower] is
    [to_snake_case]. *)
Lemma to_snake_case_str_code_points (s : string) :
  to_snake_case_str ascii_lower_str (code_points s) = code_points (to_snake_case s).
Proof.
  unfold to_snake_case_str, to_snake_case.
  assert (Hsub : forall b t, sub_underscore_str b (code_points t)
                             = code_points (sub_underscore b t)).
  { intros b t; revert b; induction t as [|c r IH]; intros b; [reflexivity|].
    unfold code_points in *; simpl. rewrite is_AZ_N_of_ascii, (IH false).
    destruct (negb b && is_upper c); reflexivity. }
  rewrite Hsub. generalize (sub_underscore true s) as t; intros t.
  induction t as [|c r IH]; [reflexivity|].
  unfold code_points, ascii_lower_str in *; simpl.
  rewrite ascii_lower_N_of_ascii, IH; reflexivity.
Qed.

Lemma ascii_lower_str_no_AZ (s : str) :
  forallb (fun c => negb (is_AZ c)) (ascii_lower_str s) = true.
Proof.
  induction s as [|c r IH]; simpl; [reflexivity|].
  rewrite IH, andb_true_r. unfold is_AZ.
  destruct (65 <=? c)%N eqn:E1; simpl; [destruct (c <=? 90)%N eqn:E2; simpl|].
  - apply N.leb_le in E1. apply negb_true_iff, andb_false_iff; right.
    apply N.leb_gt; lia.
  - rewrite E1, E2; reflexivity.
  - rewrite E1; reflexivity.
Qed.

Lemma ascii_lower_str_idempotent (s : str) :
  ascii_lower_str (ascii_lower_str s) = ascii_lower_str s.
Proof.
  pose proof (ascii_lower_str_no_AZ s) as H.
  induction (ascii_lower_str s) as [|c r IH]; simpl in *; [reflexivity|].
  apply andb_true_iff in H; destruct H as [Hc Hr].
  apply negb_true_iff in Hc; rewrite Hc, (IH Hr); reflexivity.
Qed.

Section StrLower.
Variable str_lower : str -> str.
Hypothesis str_lower_no_AZ :
  forall s, forallb (fun c => negb (is_AZ c)) (str_lower s) = true.
Hypothesis str_lower_idempotent :
  forall s, str_lower (str_lower s) = str_lower s.

Lemma sub_underscore_str_fixed (b : bool) (s : str) :
  forallb (fun c => negb (is_AZ c)) s = true -> sub_underscore_str b s = s.
Proof.
  revert b; induction s as [|c r IH]; intros b H; simpl in *; [reflexivity|].
  apply andb_true_iff in H; destruct H as [Hc Hr].
  apply negb_true_iff in Hc; rewrite Hc, andb_false_r, (IH false Hr); reflexivity.
Qed.

(** C10: [to_snake_case] is idempotent on every Python string, whatever
    [str.lower] does outside ASCII, as long as [str.lower] leaves no letter of
    [A-Z] in its result and returns a lowercased string as it is: the result
    of [to_snake_case] then has no letter of [A-Z], so that the pattern finds
    no place in it, and lowercasing it again changes nothing. *)
Theorem to_snake_case_idempotent (s : str) :
  to_snake_case_str str_lower (to_snake_case_str str_lower s)
  = to_snake_case_str str_lower s.
Proof.
  unfold to_snake_case_str.
  rewrite (sub_underscore_str_fixed true _ (str_lower_no_AZ _)).
  apply str_lower_idempotent.
Qed.

End StrLower.

Lemma to_snake_case_idempotent_witness :
  to_snake_case_str ascii_lower_str
    (to_snake_case_str ascii_lower_str (code_points "HTTPServer"))
  = code_points "h_t_t_p_server".
Proof.
  exact (to_snake_case_idempotent ascii_lower_str
           ascii_lower_str_no_AZ ascii_lower_str_idempotent
           (code_points "HTTPServer")).
Defined.

Example to_snake_case_mixed : to_snake_case "orderId" = "order_id".
Proof. reflexivity. Qed.

Example to_snake_case_acronym : to_snake_case "HTTPServer" = "h_t_t_p_server".
Proof. reflexivity. Qed.

Example to_snake_case_empty : to_snake_case "" = "".
Proof. reflexivity. Qed.

Example removeprefix_case_sensitive : removeprefix "user" "UserOrder" = "UserOrder".
Proof. reflexivity. Qed.

Example removeprefix_whole_prefix_only :
  removeprefix "UserX" "UserOrder" = "UserOrder".
Proof. reflexivity. Qed.

(** ** Dictionaries *)

Lemma dict_case_get {R : Type} (k : string) (a : R) (f : json -> R) (d : dict) :
  dict_case k a f d = match get k d with Some v => f v | None => a end.
Proof.
  induction d as [|[k' v] r IH]; simpl; [reflexivity|].
  destruct (k =? k'); [reflexivity|exact IH].
Qed.

Lemma get_set_same (k : string) (v : json) (d : dict) :
  get k (set k v d) = Some v.
Proof.
  induction d as [|[k' v'] r IH]; simpl.
  - rewrite String.eqb_refl; reflexivity.
  - destruct (k =? k') eqn:E; simpl; rewrite E; [reflexivity|exact IH].
Qed.

Lemma get_set_other (k k' : string) (v : json) (d : dict) :
  k <> k' -> get k' (set k v d) = get k' d.
Proof.
  intros Hk; induction d as [|[k0 v0] r IH]; simpl.
  - apply String.eqb_neq in Hk; rewrite String.eqb_sym, Hk; reflexivity.
  - destruct (k =? k0) eqn:E; simpl.
    + apply String.eqb_eq in E; subst k0.
      apply String.eqb_neq in Hk; rewrite String.eqb_sym, Hk; reflexivity.
    + rewrite IH; reflexivity.
Qed.

Lemma set_get_same (k : string) (v : json) (d : dict) :
  get k d = Some v -> set k v d = d.
Proof.
  induction d as [|[k' v'] r IH]; simpl; [discriminate|].
  destruct (k =? k') eqn:E.
  - intros [= ->]; reflexivity.
  - intros H; rewrite (IH H); reflexivity.
Qed.

(** ** Prefix removal *)

Lemma prefix_append (p r : string) : String.prefix p (p ++ r)%string = true.
Proof.
  induction p as [|a p IH]; simpl.
  - destruct r; reflexivity.
  - destruct (ascii_dec a a) as [_|N]; [exact IH|contradiction N; reflexivity].
Qed.

Lemma drop_append (p r : string) : drop (String.length p) (p ++ r)%string = r.
Proof.
  induction p as [|a p IH]; simpl; [destruct r; reflexivity|exact IH].
Qed.

Lemma prefix_drop (p s : string) :
  String.prefix p s = true -> s = (p ++ drop (String.length p) s)%string.
Proof.
  revert s; induction p as [|a p IH]; intros s H; simpl.
  - destruct s; reflexivity.
  - destruct s as [|b s]; simpl in H; [discriminate|].
    destruct (ascii_dec a b) as [->|_]; [|discriminate].
    rewrite <- (IH s H); reflexivity.
Qed.

Lemma removeprefix_append (p r : string) : removeprefix p (p ++ r)%string = r.
Proof.
  unfold removeprefix; rewrite prefix_append; apply drop_append.
Qed.

Lemma removeprefix_no_match (p s : string) :
  (forall r, s <> (p ++ r)%string) -> removeprefix p s = s.
Proof.
  intros H; unfold removeprefix.
  destruct (String.prefix p s) eqn:E; [|reflexivity].
  contradiction (H _ (prefix_drop p s E)).
Qed.

Lemma removeprefix_self (p : string) : removeprefix p p = "".
Proof.
  rewrite <- (removeprefix_append p "").
  f_equal. induction p as [|a p IH]; simpl; [reflexivity|rewrite <- IH; reflexivity].
Qed.

(** ** The adders *)

Lemma append_alias_ok (a : string) (obj : dict) :
  aliases_ok obj = true ->
  append_alias a obj
  = (set "aliases" (JList (alias_list obj ++ [JStr a])) obj, None).
Proof.
  unfold aliases_ok, append_alias, alias_list.
  destruct (get "aliases" obj) as [[| | | |l|]|]; try discriminate; reflexivity.
Qed.

Lemma add_alias_to_record_ok (schema : dict) (p name : string) :
  get "name" schema = Some (JStr name) -> aliases_ok schema = true ->
  add_alias_to_record schema p
  = (set "aliases"
       (JList (alias_list schema ++ [JStr (to_snake_case (removeprefix p name))]))
       schema, None).
Proof.
  intros Hn Ha; unfold add_alias_to_record; rewrite Hn.
  apply append_alias_ok, Ha.
Qed.

Lemma add_alias_to_field_ok (field : dict) (name : string) :
  get "name" field = Some (JStr name) -> aliases_ok field = true ->
  add_alias_to_field (JDict field)
  = (JDict (set "aliases" (JList (alias_list field ++ [JStr (to_snake_case name)]))
              field), None).
Proof.
  intros Hn Ha; unfold add_alias_to_field; rewrite Hn.
  rewrite (append_alias_ok _ _ Ha); reflexivity.
Qed.

(** C4: the prefix is removed from a record's name, and only when the name
    starts with exactly the prefix; a field of the same name gets the alias of
    its whole name.  The alias is appended to the [aliases] list.  With prefix
    "User", the record name "UserOrderCreatedEvent" gives
    "order_created_event". *)
Theorem prefix_stripped_from_record_names_only
  (p name : string) (schema field : dict) :
  get "name" schema = Some (JStr name) -> aliases_ok schema = true ->
  get "name" field = Some (JStr name) -> aliases_ok field = true ->
  (exists schema',
      add_alias_to_record schema p = (schema', None)
      /\ get "aliases" schema'
         = Some (JList (alias_list schema
                          ++ [JStr (to_snake_case (removeprefix p name))])))
  /\ (forall rest, name = (p ++ rest)%string -> removeprefix p name = rest)
  /\ ((forall rest, name <> (p ++ rest)%string) -> removeprefix p name = name)
  /\ (exists field',
         add_alias_to_field (JDict field) = (JDict field', None)
         /\ get "aliases" field'
            = Some (JList (alias_list field ++ [JStr (to_snake_case name)])))
  /\ to_snake_case (removeprefix "User" "UserOrderCreatedEvent")
     = "order_created_event".
Proof.
  intros Hn Ha Hfn Hfa.
  split.
  { eexists; split; [apply (add_alias_to_record_ok _ _ _ Hn Ha)|].
    apply get_set_same. }
  split; [intros rest ->; apply removeprefix_append|].
  split; [apply removeprefix_no_match|].
  split; [|reflexivity].
  eexists; split; [apply (add_alias_to_field_ok _ _ Hfn Hfa)|].
  apply get_set_same.
Qed.

Lemma prefix_stripped_from_record_names_only_witness :
  (exists schema',
      add_alias_to_record
        [("type", JStr "record"); ("name", JStr "UserOrder");
         ("aliases", JList [JStr "o"])] "User" = (schema', None)
      /\ get "aliases" schema' = Some (JList [JStr "o"; JStr "order"]))
  /\ (exists field',
         add_alias_to_field (JDict [("name", JStr "UserOrder")])
         = (JDict field', None)
         /\ get "aliases" field' = Some (JList [JStr "user_order"]))
  /\ removeprefix "user" "UserOrder" = "UserOrder".
Proof.
  pose proof (prefix_stripped_from_record_names_only "User" "UserOrder"
                [("type", JStr "record"); ("name", JStr "UserOrder");
                 ("aliases", JList [JStr "o"])]
                [("name", JStr "UserOrder")]
                eq_refl eq_refl eq_refl eq_refl) as [Hr [_ [_ [Hf _]]]].
  pose proof (prefix_stripped_from_record_names_only "user" "UserOrder"
                [("name", JStr "UserOrder")] [("name", JStr "UserOrder")]
                eq_refl eq_refl eq_refl eq_refl) as [_ [_ [Hno _]]].
  split; [exact Hr|]. split; [exact Hf|].
  apply Hno; intros rest H; discriminate H.
Defined.

(** C9: a record whose name is the prefix itself gets the empty string as its
    alias, and no exception is raised. *)
Theorem record_named_as_prefix_gets_empty_alias (schema : dict) (p : string) :
  get "name" schema = Some (JStr p) -> aliases_ok schema = true ->
  add_alias_to_record schema p
  = (set "aliases" (JList (alias_list schema ++ [JStr ""])) schema, None).
Proof.
  intros Hn Ha; rewrite (add_alias_to_record_ok _ _ _ Hn Ha).
  rewrite removeprefix_self; reflexivity.
Qed.

Lemma record_named_as_prefix_gets_empty_alias_witness :
  add_alias_to_record [("type", JStr "record"); ("name", JStr "User")] "User"
  = ([("type", JStr "record"); ("name", JStr "User"); ("aliases", JList [JStr ""])],
     None).
Proof.
  exact (record_named_as_prefix_gets_empty_alias
           [("type", JStr "record"); ("name", JStr "User")] "User"
           eq_refl eq_refl).
Defined.

(** ** The traversal in the order of the source *)

Lemma append_alias_get (a k : string) (obj : dict) :
  k <> "aliases" -> get k (fst (append_alias a obj)) = get k obj.
Proof.
  intros Hk; unfold append_alias.
  destruct (get "aliases" obj) as [[| | | |l|]|]; simpl;
    try reflexivity; apply get_set_other; congruence.
Qed.

Lemma add_alias_to_record_get (schema : dict) (p k : string) :
  k <> "aliases" -> get k (fst (add_alias_to_record schema p)) = get k schema.
Proof.
  intros Hk; unfold add_alias_to_record.
  destruct (get "name" schema) as [[| | |n| |]|]; simpl;
    try reflexivity; apply append_alias_get, Hk.
Qed.

(** A field that got its alias is a dict with the entries it had, but for
    [aliases]. *)
Lemma add_alias_to_field_get (field f1 : json) (k : string) :
  add_alias_to_field field = (f1, None) ->
  exists f d1, field = JDict f /\ f1 = JDict d1
               /\ (k <> "aliases" -> get k d1 = get k f).
Proof.
  unfold add_alias_to_field.
  destruct field as [| | | | |f]; try discriminate.
  destruct (get "name" f) as [[| | |n| |]|]; try discriminate.
  destruct (append_alias (to_snake_case n) f) as [f' e] eqn:E.
  intros [= <- ->]. exists f, f'; repeat split.
  intros Hk; rewrite <- (append_alias_get (to_snake_case n) k f Hk), E; reflexivity.
Qed.

Lemma traverse_field_eq (traverse_type : json -> outcome json) (field : json) :
  traverse_field traverse_type field = traverse_field_body traverse_type field.
Proof.
  unfold traverse_field, traverse_field_body.
  destruct (add_alias_to_field field) as [f1 [e|]] eqn:E; [reflexivity|].
  destruct (add_alias_to_field_get field f1 "type" E) as (f & d1 & -> & -> & Hget).
  rewrite dict_case_get, Hget by discriminate; reflexivity.
Qed.

Lemma for_each_ext (f g : json -> outcome json) (l : list json) :
  (forall x, In x l -> f x = g x) -> for_each f l = for_each g l.
Proof.
  induction l as [|x r IH]; simpl; intros H; [reflexivity|].
  rewrite (H x (or_introl eq_refl)), IH; [reflexivity|].
  intros y Hy; apply H; right; exact Hy.
Qed.

Lemma _traverse_type_eq (type_obj : json) (p : string) :
  _traverse_type type_obj p
  = match type_obj with
    | JDict _ => traverse_schema type_obj p
    | JList l =>
        let (l', e) :=
          for_each (traverse_member (fun s => traverse_schema s p)) l in
        (JList l', e)
    | _ => (type_obj, None)
    end.
Proof. reflexivity. Qed.

Theorem traverse_schema_eq (schema : json) (p : string) :
  traverse_schema schema p
  = traverse_schema_body (fun t => _traverse_type t p) schema p.
Proof.
  destruct schema as [| | | | |d]; try reflexivity.
  simpl. destruct (get "type" d) as [[| | |t| |]|]; try reflexivity.
  destruct (t =? "record").
  - destruct (add_alias_to_record d p) as [d1 [e|]] eqn:E; [reflexivity|].
    assert (Hf : get "fields" d1 = get "fields" d).
    { rewrite <- (add_alias_to_record_get d p "fields") by discriminate.
      rewrite E; reflexivity. }
    rewrite dict_case_get, Hf.
    destruct (get "fields" d) as [[| | |s|fs|fd]|]; try reflexivity.
    rewrite (for_each_ext _ (traverse_field_body (fun t => _traverse_type t p)) fs);
      [reflexivity|].
    intros x _; apply traverse_field_eq.
  - destruct (t =? "array"); [|reflexivity].
    rewrite dict_case_get; reflexivity.
Qed.

(** ** Loops *)

Lemma for_each_length (body : json -> outcome json) (l : list json) :
  List.length (fst (for_each body l)) = List.length l.
Proof.
  induction l as [|x r IH]; simpl; [reflexivity|].
  destruct (body x) as [x' [e|]]; simpl; [reflexivity|].
  destruct (for_each body r) as [r' e]; simpl in *; rewrite IH; reflexivity.
Qed.

(** A loop that ends without an exception ran its body on every element. *)
Lemma for_each_ok (body : json -> outcome json) (l : list json) :
  snd (for_each body l) = None ->
  fst (for_each body l) = map (fun x => fst (body x)) l
  /\ forall x, In x l -> snd (body x) = None.
Proof.
  induction l as [|x r IH]; simpl; [intros _; split; [reflexivity|contradiction]|].
  destruct (body x) as [x' [e|]] eqn:E; simpl; [discriminate|].
  destruct (for_each body r) as [r' e]; simpl in *.
  intros He; destruct (IH He) as [-> Hall]; split; [reflexivity|].
  intros y [<-|Hy]; [rewrite E; reflexivity|apply Hall, Hy].
Qed.

Lemma for_each_all_ok (body : json -> outcome json) (l : list json) :
  (forall x, In x l -> snd (body x) = None) ->
  for_each body l = (map (fun x => fst (body x)) l, None).
Proof.
  induction l as [|x r IH]; simpl; intros H; [reflexivity|].
  pose proof (H x (or_introl eq_refl)) as Hx.
  destruct (body x) as [x' [e|]]; simpl in *; [discriminate|].
  rewrite IH; [reflexivity|]. intros y Hy; apply H; right; exact Hy.
Qed.

(** An element the body leaves alone is the same after the loop, whatever
    happens to the others. *)
Lemma for_each_nth_skipped (body : json -> outcome json) (l : list json)
  (i : nat) (x : json) :
  nth_error l i = Some x -> fst (body x) = x ->
  nth_error (fst (for_each body l)) i = Some x.
Proof.
  revert i; induction l as [|y r IH]; intros [|i]; simpl; try discriminate.
  - intros [= ->] Hx. destruct (body x) as [x' [e|]]; simpl in *; subst x'.
    + reflexivity.
    + destruct (for_each body r); reflexivity.
  - intros Hi Hx. destruct (body y) as [y' [e|]]; simpl; [exact Hi|].
    specialize (IH i Hi Hx). destruct (for_each body r); exact IH.
Qed.

(** ** Examples and malformed records *)

(** C3: the end-to-end example: with prefix "User" the five aliases [order],
    [order_id], [line_items], [line_item] and [sku_code] are added, each as
    the last entry of its object, and nothing else changes. *)
Theorem order_example :
  add_aliases_to_avro_schema order_schema "User" = (order_schema_aliased, None).
Proof. vm_compute; reflexivity. Qed.

(** C8: a record without [fields] gets its record alias and nothing else
    happens: the loop runs over the empty list, and no exception comes from
    the missing key. *)
Theorem record_without_fields (d : dict) (p : string) :
  get "type" d = Some (JStr "record") -> get "fields" d = None ->
  traverse_schema (JDict d) p
  = (JDict (fst (add_alias_to_record d p)), snd (add_alias_to_record d p))
  /\ (name_ok d = true -> aliases_ok d = true ->
      snd (traverse_schema (JDict d) p) = None).
Proof.
  intros Ht Hf.
  assert (E : traverse_schema (JDict d) p
              = (JDict (fst (add_alias_to_record d p)),
                 snd (add_alias_to_record d p))).
  { rewrite traverse_schema_eq; unfold traverse_schema_body; rewrite Ht; simpl.
    pose proof (add_alias_to_record_get d p "fields") as Hg.
    destruct (add_alias_to_record d p) as [d1 [e|]]; simpl in *; [reflexivity|].
    rewrite Hg, Hf by discriminate; reflexivity. }
  split; [exact E|].
  intros Hn Ha; rewrite E; simpl.
  unfold name_ok in Hn; unfold add_alias_to_record.
  destruct (get "name" d) as [[| | |n| |]|]; try discriminate; [|reflexivity].
  rewrite (append_alias_ok _ _ Ha); reflexivity.
Qed.

Lemma record_without_fields_witness :
  traverse_schema (JDict [("type", JStr "record"); ("name", JStr "UserOrder")]) "User"
  = (JDict [("type", JStr "record"); ("name", JStr "UserOrder");
            ("aliases", JList [JStr "order"])], None).
Proof.
  exact (proj1 (record_without_fields
                  [("type", JStr "record"); ("name", JStr "UserOrder")] "User"
                  eq_refl eq_refl)).
Defined.

(** ** Unions *)

Lemma for_each_skip_all (body : json -> outcome json) (l : list json) :
  (forall x, In x l -> body x = (x, None)) -> for_each body l = (l, None).
Proof.
  induction l as [|x r IH]; simpl; intros H; [reflexivity|].
  rewrite (H x (or_introl eq_refl)), IH; [reflexivity|].
  intros y Hy; apply H; right; exact Hy.
Qed.

(** A union of bare type names is left alone. *)
Lemma _traverse_type_primitives (l : list json) (p : string) :
  forallb (fun t => negb (is_dict t)) l = true ->
  _traverse_type (JList l) p = (JList l, None).
Proof.
  intros H; rewrite _traverse_type_eq, for_each_skip_all; [reflexivity|].
  intros x Hx. rewrite forallb_forall in H. specialize (H x Hx).
  destruct x; try reflexivity; discriminate.
Qed.

(** The element at a place the loop reaches, which it does when the body
    raised nothing on the elements before it, is afterwards what the body
    made of it, and an exception of the body there is the exception of the
    loop. *)
Lemma for_each_reached (body : json -> outcome json) (l : list json)
  (i : nat) (x : json) :
  nth_error l i = Some x ->
  (forall j u, j < i -> nth_error l j = Some u -> snd (body u) = None) ->
  nth_error (fst (for_each body l)) i = Some (fst (body x))
  /\ (forall e, snd (body x) = Some e -> snd (for_each body l) = Some e).
Proof.
  revert i; induction l as [|y r IH]; intros [|i]; simpl; try discriminate.
  - intros [= ->] _. destruct (body x) as [x' [e|]]; simpl.
    + split; [reflexivity|intros e' H; exact H].
    + destruct (for_each body r); split; [reflexivity|discriminate].
  - intros Hi Hbefore.
    pose proof (Hbefore 0 y (Nat.lt_0_succ i) eq_refl) as Hy.
    destruct (body y) as [y' [e|]]; simpl in Hy; [discriminate|].
    destruct (IH i Hi) as [Hn He].
    { intros j u Hj Hu; apply (Hbefore (S j) u); [lia|exact Hu]. }
    destruct (for_each body r); simpl in *; split; assumption.
Qed.

(** C6: on a union, the type dispatch calls the traverser on the members that
    are objects and on no other.  A member that is not an object is the same
    afterwards.  An object member that the loop reaches, which it does when
    the runs on the object members before it raised nothing, is afterwards
    the result of the run of the traverser on it, and an exception of that
    run is the exception of the dispatch; the dispatch raises nothing exactly
    when the run on every object member raises nothing.  A type that is an
    object itself is traversed as well.  A field whose type is a union of
    bare type names, such as ["null","string"], gets its field alias and
    nothing else. *)
Theorem union_dispatch (l : list json) (p : string) :
  exists l' e,
    _traverse_type (JList l) p = (JList l', e)
    /\ List.length l' = List.length l
    /\ (forall i t, nth_error l i = Some t -> is_dict t = false ->
                    nth_error l' i = Some t)
    /\ (forall i t,
          nth_error l i = Some t -> is_dict t = true ->
          (forall j u, j < i -> nth_error l j = Some u -> is_dict u = true ->
                       snd (traverse_schema u p) = None) ->
          nth_error l' i = Some (fst (traverse_schema t p))
          /\ (forall e', snd (traverse_schema t p) = Some e' -> e = Some e'))
    /\ (e = None <->
        forall t, In t l -> is_dict t = true -> snd (traverse_schema t p) = None)
    /\ (e = None ->
        l' = map (fun t => if is_dict t then fst (traverse_schema t p) else t) l)
    /\ (forall d, _traverse_type (JDict d) p = traverse_schema (JDict d) p)
    /\ (forallb (fun t => negb (is_dict t)) l = true ->
        l' = l /\ e = None
        /\ forall f name,
            get "name" f = Some (JStr name) -> aliases_ok f = true ->
            get "type" f = Some (JList l) ->
            traverse_field (fun t => _traverse_type t p) (JDict f)
            = (JDict (set "aliases"
                        (JList (alias_list f ++ [JStr (to_snake_case name)])) f),
               None)).
Proof.
  set (body := traverse_member (fun s => traverse_schema s p)).
  assert (Hbody : forall t, is_dict t = true -> body t = traverse_schema t p)
    by (intros t Ht; destruct t; try discriminate; reflexivity).
  assert (Hskip : forall t, is_dict t = false -> body t = (t, None))
    by (intros t Ht; destruct t; try discriminate; reflexivity).
  exists (fst (for_each body l)), (snd (for_each body l)).
  split.
  { rewrite _traverse_type_eq; fold body.
    destruct (for_each body l); reflexivity. }
  split; [apply for_each_length|].
  split.
  { intros i t Hi Ht; apply for_each_nth_skipped; [exact Hi|].
    rewrite (Hskip t Ht); reflexivity. }
  split.
  { intros i t Hi Ht Hbefore.
    rewrite <- (Hbody t Ht). apply for_each_reached; [exact Hi|].
    intros j u Hj Hu. destruct (is_dict u) eqn:Hd.
    - rewrite (Hbody u Hd); apply (Hbefore j u Hj Hu Hd).
    - rewrite (Hskip u Hd); reflexivity. }
  split.
  { split.
    - intros He t Hin Ht. rewrite <- (Hbody t Ht).
      apply (proj2 (for_each_ok body l He) t Hin).
    - intros Hall. rewrite for_each_all_ok; [reflexivity|].
      intros t Hin. destruct (is_dict t) eqn:Hd.
      + rewrite (Hbody t Hd); apply (Hall t Hin Hd).
      + rewrite (Hskip t Hd); reflexivity. }
  split.
  { intros He; destruct (for_each_ok body l He) as [-> _].
    apply map_ext; intros t; destruct t; reflexivity. }
  split; [reflexivity|].
  intros Hprim.
  pose proof (_traverse_type_primitives l p Hprim) as E.
  rewrite _traverse_type_eq in E; fold body in E.
  destruct (for_each body l) as [l' e]; simpl.
  injection E as -> ->. split; [reflexivity|]. split; [reflexivity|].
  intros f name Hn Ha Ht.
  rewrite traverse_field_eq; unfold traverse_field_body.
  rewrite (add_alias_to_field_ok f name Hn Ha).
  rewrite get_set_other, Ht by discriminate.
  rewrite (_traverse_type_primitives l p Hprim).
  rewrite set_get_same; [reflexivity|].
  rewrite get_set_other by discriminate; exact Ht.
Qed.

Lemma union_dispatch_witness :
  (exists l',
      fst (_traverse_type
             (JList [JStr "null";
                     JDict [("type", JStr "record"); ("name", JStr "UserAddress");
                            ("fields", JList [])]]) "User") = JList l'
      /\ nth_error l' 0 = Some (JStr "null")
      /\ nth_error l' 1
         = Some (JDict [("type", JStr "record"); ("name", JStr "UserAddress");
                        ("fields", JList []);
                        ("aliases", JList [JStr "address"])]))
  /\ traverse_field (fun t => _traverse_type t "User")
       (JDict [("name", JStr "middleName");
               ("type", JList [JStr "null"; JStr "string"])])
     = (JDict [("name", JStr "middleName");
               ("type", JList [JStr "null"; JStr "string"]);
               ("aliases", JList [JStr "middle_name"])], None).
Proof.
  split.
  - destruct (union_dispatch
                [JStr "null";
                 JDict [("type", JStr "record"); ("name", JStr "UserAddress");
                        ("fields", JList [])]] "User")
      as (l' & e & Heq & _ & Hskip & Hobj & _).
    exists l'. split; [rewrite Heq; reflexivity|]. split.
    + exact (Hskip 0 (JStr "null") eq_refl eq_refl).
    + refine (proj1 (Hobj 1 _ eq_refl eq_refl _)).
      intros [|[|j]] u Hj Hu Hd; [injection Hu as <-; discriminate Hd|lia|lia].
  - destruct (union_dispatch [JStr "null"; JStr "string"] "User")
      as (l' & e & _ & _ & _ & _ & _ & _ & _ & H).
    destruct (H eq_refl) as (_ & _ & Hf).
    exact (Hf [("name", JStr "middleName");
               ("type", JList [JStr "null"; JStr "string"])]
              "middleName" eq_refl eq_refl eq_refl).
Defined.

(** ** Induction on the size of the tree *)

Lemma size_get (k : string) (d : dict) (v : json) :
  get k d = Some v -> size v < size (JDict d).
Proof.
  simpl; induction d as [|[k' w] r IH]; simpl; [discriminate|].
  destruct (k =? k').
  - intros [= ->]; lia.
  - intros H; specialize (IH H); lia.
Qed.

Lemma size_in (x : json) (l : list json) : In x l -> size x < size (JList l).
Proof.
  simpl; induction l as [|y r IH]; simpl; [contradiction|].
  intros [->|H]; [lia|specialize (IH H); lia].
Qed.

Lemma size_nth (l : list json) (i : nat) (x : json) :
  nth_error l i = Some x -> size x < size (JList l).
Proof. intros H; apply size_in, (nth_error_In _ _ H). Qed.

#[local] Arguments size : simpl never.

Lemma size_induction (P : json -> Prop) :
  (forall v, (forall w, size w < size v -> P w) -> P v) -> forall v, P v.
Proof.
  intros step v.
  assert (H : forall n w, size w < n -> P w).
  { induction n as [|n IH]; intros w Hw; [lia|].
    apply step; intros u Hu; apply IH; lia. }
  apply (H (S (size v))); lia.
Qed.

(** ** Nothing but aliases changes *)

Lemma set_absent (k : string) (v : json) (d : dict) :
  get k d = None -> set k v d = d ++ [(k, v)].
Proof.
  induction d as [|[k' v'] r IH]; simpl; [reflexivity|].
  destruct (k =? k'); [discriminate|].
  intros H; rewrite (IH H); reflexivity.
Qed.

Lemma set_app_present (k : string) (v w : json) (d t : dict) :
  get k d = Some w -> set k v (d ++ t) = set k v d ++ t.
Proof.
  induction d as [|[k' v'] r IH]; simpl; [discriminate|].
  destruct (k =? k'); [reflexivity|].
  intros H; rewrite (IH H); reflexivity.
Qed.

Section Grow.
Variable R : json -> json -> Prop.

Lemma entries_grow_refl (d : dict) : entries_grow R d d.
Proof. induction d as [|kv r IH]; constructor; exact IH. Qed.

(** Both dicts have the same keys. *)
Lemma entries_grow_get (d d1 : dict) (k : string) (v : json) :
  entries_grow R d d1 -> get k d = Some v -> exists v1, get k d1 = Some v1.
Proof.
  induction 1 as [|[k0 v0] r r' _ IH|k0 v0 v0' r r' _ _ _ IH|l extra r r' _ IH];
    simpl; try discriminate; destruct (k =? _); eauto.
Qed.

Lemma entries_grow_set (d d1 : dict) (k : string) (v v' : json) :
  entries_grow R d d1 -> k <> "aliases" -> get k d = Some v -> R v v' ->
  entries_grow R d (set k v' d1).
Proof.
  intros H Hk; revert v.
  induction H as [|[k0 v0] r r' Hr IH|k0 v0 v0' r r' Hk0 Hv Hr IH|l extra r r' Hr IH];
    simpl; intros v Hg HR.
  - discriminate.
  - destruct (k =? k0) eqn:E.
    + injection Hg as ->. apply String.eqb_eq in E; subst k0.
      apply eg_inside; assumption.
    + apply eg_same, (IH v); assumption.
  - destruct (k =? k0) eqn:E.
    + injection Hg as ->. apply eg_inside; assumption.
    + apply eg_inside; [assumption..|]. apply (IH v); assumption.
  - destruct (k =? "aliases") eqn:E.
    + apply String.eqb_eq in E; contradiction.
    + apply eg_append, (IH v); assumption.
Qed.

Lemma entries_grow_alias_set (d : dict) (l : list json) (extra : list string) :
  get "aliases" d = Some (JList l) ->
  entries_grow R d (set "aliases" (JList (l ++ map JStr extra)) d).
Proof.
  induction d as [|[k v] r IH]; simpl; [discriminate|].
  destruct ("aliases" =? k) eqn:E.
  - apply String.eqb_eq in E; subst k. intros [= ->].
    apply eg_append, entries_grow_refl.
  - intros H; apply eg_same, IH, H.
Qed.
End Grow.

Lemma grows_set (d d1 : dict) (k : string) (v v' : json) :
  only_aliases_grow (JDict d) (JDict d1) -> k <> "aliases" -> get k d = Some v ->
  only_aliases_grow v v' -> only_aliases_grow (JDict d) (JDict (set k v' d1)).
Proof.
  intros H Hk Hg Hv; inversion H as [u|l l' Hl|d0 d0' Hd|d0 d0' extra Ha Hd]; subst.
  - apply oag_dict, (entries_grow_set _ _ _ _ v); auto using entries_grow_refl.
  - apply oag_dict, (entries_grow_set _ _ _ _ v); assumption.
  - destruct (entries_grow_get _ _ _ _ _ Hd Hg) as [v1 Hv1].
    rewrite (set_app_present _ _ v1 _ _ Hv1).
    apply oag_new; [assumption|].
    apply (entries_grow_set _ _ _ _ v); assumption.
Qed.

Lemma append_alias_grows (a : string) (obj : dict) :
  only_aliases_grow (JDict obj) (JDict (fst (append_alias a obj))).
Proof.
  unfold append_alias.
  destruct (get "aliases" obj) as [[| | | |l|]|] eqn:E; simpl; try apply oag_same.
  - apply oag_dict, (entries_grow_alias_set _ obj l [a]), E.
  - rewrite (set_absent _ _ _ E).
    apply (oag_new obj obj [a] E), entries_grow_refl.
Qed.

Lemma add_alias_to_record_grows (schema : dict) (p : string) :
  only_aliases_grow (JDict schema) (JDict (fst (add_alias_to_record schema p))).
Proof.
  unfold add_alias_to_record.
  destruct (get "name" schema) as [[| | |n| |]|]; simpl;
    try apply oag_same; apply append_alias_grows.
Qed.

Lemma add_alias_to_field_grows (field : json) :
  only_aliases_grow field (fst (add_alias_to_field field)).
Proof.
  unfold add_alias_to_field.
  destruct field as [| | | | |f]; try apply oag_same.
  destruct (get "name" f) as [[| | |n| |]|]; try apply oag_same.
  pose proof (append_alias_grows (to_snake_case n) f) as H.
  destruct (append_alias (to_snake_case n) f); exact H.
Qed.

Lemma for_each_grows (body : json -> outcome json) (l : list json) :
  (forall x, In x l -> only_aliases_grow x (fst (body x))) ->
  Forall2 only_aliases_grow l (fst (for_each body l)).
Proof.
  induction l as [|x r IH]; simpl; intros H; [constructor|].
  pose proof (H x (or_introl eq_refl)) as Hx.
  assert (Hr : Forall2 only_aliases_grow r (fst (for_each body r))).
  { apply IH; intros y Hy; apply H; right; exact Hy. }
  destruct (body x) as [x' [e|]]; simpl in *.
  - constructor; [exact Hx|].
    clear; induction r; constructor; [apply oag_same|assumption].
  - destruct (for_each body r); constructor; assumption.
Qed.

Section TraversalGrows.
Variable p : string.

Lemma traverse_type_grows (t : json) :
  (forall w, size w <= size t -> only_aliases_grow w (fst (traverse_schema w p))) ->
  only_aliases_grow t (fst (_traverse_type t p)).
Proof.
  intros IH; rewrite _traverse_type_eq.
  destruct t as [| | | |l|d]; try apply oag_same.
  - pose proof (for_each_grows (traverse_member (fun s => traverse_schema s p)) l) as H.
    destruct (for_each _ l) as [l' e]; simpl in *.
    apply oag_list, H. intros x Hx.
    destruct x; try apply oag_same.
    apply IH. pose proof (size_in _ _ Hx); lia.
  - apply IH; lia.
Qed.

Lemma traverse_field_grows (x : json) :
  (forall w, size w < size x -> only_aliases_grow w (fst (traverse_schema w p))) ->
  only_aliases_grow x (fst (traverse_field_body (fun t => _traverse_type t p) x)).
Proof.
  intros IH; unfold traverse_field_body.
  pose proof (add_alias_to_field_grows x) as Hx.
  destruct (add_alias_to_field x) as [f1 [e|]] eqn:E; [exact Hx|].
  destruct (add_alias_to_field_get x f1 "type" E) as (f & d1 & -> & -> & Hget).
  rewrite Hget by discriminate.
  destruct (get "type" f) as [t|] eqn:Ht; [|exact Hx].
  assert (Hgt : only_aliases_grow t (fst (_traverse_type t p))).
  { apply traverse_type_grows; intros w Hw; apply IH.
    pose proof (size_get _ _ _ Ht); lia. }
  destruct (_traverse_type t p) as [t' e]; simpl in *.
  apply (grows_set f d1 "type" t t'); [assumption|discriminate|assumption..].
Qed.

Lemma traverse_schema_grows (s : json) : only_aliases_grow s (fst (traverse_schema s p)).
Proof.
  induction s as [s IH] using size_induction.
  rewrite traverse_schema_eq; unfold traverse_schema_body.
  destruct s as [| | | | |d]; try apply oag_same.
  destruct (get "type" d) as [[| | |t| |]|]; try apply oag_same.
  destruct (t =? "record").
  - pose proof (add_alias_to_record_grows d p) as Hd.
    pose proof (add_alias_to_record_get d p "fields") as Hf.
    destruct (add_alias_to_record d p) as [d1 [e|]]; simpl in *; [exact Hd|].
    rewrite Hf by discriminate.
    destruct (get "fields" d) as [[| | |n|fs|fd]|] eqn:Hfs; try exact Hd.
    + destruct n; exact Hd.
    + pose proof (for_each_grows
                    (traverse_field_body (fun t => _traverse_type t p)) fs) as H.
      destruct (for_each _ fs) as [fs' e]; simpl in *.
      apply (grows_set d d1 "fields" (JList fs) (JList fs'));
        [assumption|discriminate|assumption|].
      apply oag_list, H; intros x Hx.
      apply traverse_field_grows; intros w Hw; apply IH.
      pose proof (size_in _ _ Hx); pose proof (size_get _ _ _ Hfs); lia.
    + destruct fd; exact Hd.
  - destruct (t =? "array"); [|apply oag_same].
    destruct (get "items" d) as [items|] eqn:Hi; [|apply oag_same].
    assert (Hgt : only_aliases_grow items (fst (_traverse_type items p))).
    { apply traverse_type_grows; intros w Hw; apply IH.
      pose proof (size_get _ _ _ Hi); lia. }
    destruct (_traverse_type items p) as [items' e]; simpl in *.
    apply (grows_set d d "items" items items');
      [apply oag_same|discriminate|assumption..].
Qed.
End TraversalGrows.

(** What [only_aliases_grow] says of an object, a list and a scalar. *)

Lemma only_aliases_grow_keys (d : dict) (v' : json) :
  only_aliases_grow (JDict d) v' ->
  exists d', v' = JDict d'
             /\ (map fst d' = map fst d \/ map fst d' = map fst d ++ ["aliases"]).
Proof.
  assert (K : forall d0 d1, entries_grow only_aliases_grow d0 d1 ->
                            map fst d1 = map fst d0).
  { induction 1; simpl; congruence. }
  intros H; inversion H as [u|l l' Hl|d0 d0' Hd|d0 d0' extra Ha Hd]; subst.
  - exists d; auto.
  - exists d0'; split; [reflexivity|left; apply K, Hd].
  - eexists; split; [reflexivity|right].
    rewrite map_app, (K _ _ Hd); reflexivity.
Qed.

Lemma only_aliases_grow_list (l : list json) (v' : json) :
  only_aliases_grow (JList l) v' ->
  exists l', v' = JList l' /\ Forall2 only_aliases_grow l l'.
Proof.
  intros H; inversion H as [u|l0 l' Hl|d0 d0' Hd|d0 d0' extra Ha Hd]; subst.
  - exists l; split; [reflexivity|].
    clear; induction l; constructor; [apply oag_same|assumption].
  - exists l'; auto.
Qed.

Lemma only_aliases_grow_str (s : string) (v' : json) :
  only_aliases_grow (JStr s) v' -> v' = JStr s.
Proof. intros H; inversion H; reflexivity. Qed.

Lemma only_aliases_grow_value (d d' : dict) (k : string) (v : json) :
  only_aliases_grow (JDict d) (JDict d') -> k <> "aliases" ->
  get k d = Some v -> exists v', get k d' = Some v' /\ only_aliases_grow v v'.
Proof.
  assert (K : forall d0 d1, entries_grow only_aliases_grow d0 d1 ->
                get k d0 = Some v -> k <> "aliases" ->
                exists v', get k d1 = Some v' /\ only_aliases_grow v v').
  { induction 1 as [|[k0 v0] r r' _ IH|k0 v0 v0' r r' _ Hv _ IH|l extra r r' _ IH];
      simpl; intros Hg Hk; try discriminate.
    - destruct (k =? k0); [injection Hg as ->; eauto using oag_same|auto].
    - destruct (k =? k0); [injection Hg as ->; eauto|auto].
    - destruct (k =? "aliases") eqn:E; [apply String.eqb_eq in E; contradiction|auto]. }
  intros H Hk Hg; inversion H as [u|l l' Hl|d0 d0' Hd|d0 d0' extra Ha Hd]; subst.
  - eauto using oag_same.
  - eauto.
  - destruct (K _ _ Hd Hg Hk) as (v' & Hv' & HR). exists v'; split; [|exact HR].
    clear - Hv'. induction d0' as [|[k0 v0] r IH]; simpl in *; [discriminate|].
    destruct (k =? k0); auto.
Qed.

Lemma drop_aliases_app (f : json -> json) (d : dict) (v : json) :
  drop_aliases f (d ++ [("aliases", v)]) = drop_aliases f d.
Proof.
  induction d as [|[k w] r IH]; simpl; [reflexivity|].
  destruct (k =? "aliases"); rewrite IH; reflexivity.
Qed.

Lemma size_entry (k : string) (v : json) (d : dict) :
  In (k, v) d -> size v < size (JDict d).
Proof.
  unfold size at 2; fold size. induction d as [|[k' w] r IH]; simpl; [contradiction|].
  intros [[= -> ->]|H]; [lia|specialize (IH H); lia].
Qed.

(** Two trees related by [only_aliases_grow] are equal once the aliases are
    taken out. *)
Lemma only_aliases_grow_without (v v' : json) :
  only_aliases_grow v v' -> without_aliases v = without_aliases v'.
Proof.
  revert v'; induction v as [v IH] using size_induction; intros v' H.
  assert (K : forall d0 d1, entries_grow only_aliases_grow d0 d1 ->
                (forall k w, In (k, w) d0 -> size w < size v) ->
                drop_aliases without_aliases d0 = drop_aliases without_aliases d1).
  { induction 1 as [|[k0 v0] r r' _ IHe|k0 v0 v0' r r' Hk Hv _ IHe|l extra r r' _ IHe];
      simpl; intros Hsz.
    - reflexivity.
    - rewrite IHe; [reflexivity|]. intros k w Hw; apply (Hsz k w); right; exact Hw.
    - apply String.eqb_neq in Hk; rewrite Hk.
      rewrite (IH v0 (Hsz k0 v0 (or_introl eq_refl)) v0' Hv), IHe; [reflexivity|].
      intros k w Hw; apply (Hsz k w); right; exact Hw.
    - rewrite ?String.eqb_refl. apply IHe.
      intros k w Hw; apply (Hsz k w); right; exact Hw. }
  inversion H as [u|l l' Hl|d0 d0' Hd|d0 d0' extra Ha Hd]; subst.
  - reflexivity.
  - simpl; f_equal.
    assert (Hsz : forall x, In x l -> size x < size (JList l))
      by (intros x; apply size_in).
    clear H K; revert IH Hsz; generalize (size (JList l)) as n; intros n IH.
    induction Hl as [|x x' r r' Hx _ IHl]; simpl; intros Hsz; [reflexivity|].
    rewrite (IH x (Hsz x (or_introl eq_refl)) x' Hx).
    rewrite IHl; [reflexivity|]. intros y Hy; apply Hsz; right; exact Hy.
  - simpl; f_equal; apply K; [exact Hd|]. intros k w; apply size_entry.
  - simpl; rewrite drop_aliases_app; f_equal; apply K; [exact Hd|].
    intros k w; apply size_entry.
Qed.

(** C1: the traversal changes nothing but aliases.  Every object keeps its
    keys, in their order, with at most a new [aliases] entry after them; every
    list keeps its members in their order; every scalar, a [name] among them,
    is the same; an [aliases] list that was there keeps its entries and gets
    new ones at its end.  With the aliases taken out, the tree after the run
    is the tree before it.  This holds for a run that raised as well. *)
Theorem traversal_changes_only_aliases (schema : json) (p : string) :
  only_aliases_grow schema (fst (add_aliases_to_avro_schema schema p))
  /\ without_aliases (fst (add_aliases_to_avro_schema schema p))
     = without_aliases schema.
Proof.
  unfold add_aliases_to_avro_schema.
  pose proof (traverse_schema_grows p schema) as H.
  split; [exact H|]. symmetry; apply only_aliases_grow_without, H.
Qed.

(** ** What a run without exception did *)

Lemma add_alias_to_record_inv (d d1 : dict) (p : string) :
  add_alias_to_record d p = (d1, None) ->
  (get "name" d = None /\ d1 = d)
  \/ exists name,
      get "name" d = Some (JStr name) /\ aliases_ok d = true
      /\ d1 = set "aliases"
                (JList (alias_list d
                          ++ [JStr (to_snake_case (removeprefix p name))])) d.
Proof.
  unfold add_alias_to_record, append_alias, aliases_ok, alias_list.
  destruct (get "name" d) as [[| | |n| |]|]; try discriminate.
  - destruct (get "aliases" d) as [[| | | |l|]|]; try discriminate;
      intros [= <-]; right; exists n; auto.
  - intros [= <-]; left; auto.
Qed.

Lemma add_alias_to_field_inv (x f1 : json) :
  add_alias_to_field x = (f1, None) ->
  exists f name,
    x = JDict f /\ get "name" f = Some (JStr name) /\ aliases_ok f = true
    /\ f1 = JDict (set "aliases"
                     (JList (alias_list f ++ [JStr (to_snake_case name)])) f).
Proof.
  unfold add_alias_to_field, append_alias, aliases_ok, alias_list.
  destruct x as [| | | | |f]; try discriminate.
  destruct (get "name" f) as [[| | |n| |]|] eqn:En; try discriminate.
  destruct (get "aliases" f) as [[| | | |l|]|] eqn:Ea; try discriminate;
    intros [= <-]; exists f, n; rewrite En, Ea; repeat split; reflexivity.
Qed.

Section Runs.
Variable p : string.

#[local] Abbreviation field_body :=
  (traverse_field_body (fun t => _traverse_type t p)).

(** A field the loop body went through without exception: it had a string
    [name], got its alias, and its [type] was traversed. *)
Lemma traverse_field_ok (x : json) :
  snd (field_body x) = None ->
  exists f name t,
    x = JDict f /\ get "name" f = Some (JStr name) /\ aliases_ok f = true
    /\ get "type" f = Some t /\ snd (_traverse_type t p) = None
    /\ fst (field_body x)
       = JDict (set "type" (fst (_traverse_type t p))
                  (set "aliases"
                     (JList (alias_list f ++ [JStr (to_snake_case name)])) f)).
Proof.
  unfold traverse_field_body.
  destruct (add_alias_to_field x) as [f1 [e|]] eqn:E; [discriminate|].
  destruct (add_alias_to_field_inv x f1 E) as (f & name & -> & Hn & Ha & ->).
  rewrite get_set_other by discriminate.
  destruct (get "type" f) as [t|] eqn:Ety; [|discriminate].
  destruct (_traverse_type t p) as [t' e] eqn:Et; simpl.
  intros ->; exists f, name, t; rewrite Et; repeat split; assumption.
Qed.

(** The run on a record with a list of fields. *)
Lemma traverse_record_eq (d : dict) (fs : list json) :
  get "type" d = Some (JStr "record") -> get "fields" d = Some (JList fs) ->
  traverse_schema (JDict d) p
  = match add_alias_to_record d p with
    | (d1, Some e) => (JDict d1, Some e)
    | (d1, None) =>
        let (fs', e) := for_each field_body fs in
        (JDict (set "fields" (JList fs') d1), e)
    end.
Proof.
  intros Ht Hf; rewrite traverse_schema_eq; unfold traverse_schema_body.
  rewrite Ht, String.eqb_refl.
  pose proof (add_alias_to_record_get d p "fields") as Hg.
  destruct (add_alias_to_record d p) as [d1 [e|]]; simpl in Hg; [reflexivity|].
  rewrite Hg, Hf by discriminate; reflexivity.
Qed.

Lemma traverse_array_eq (d : dict) (t : json) :
  get "type" d = Some (JStr "array") -> get "items" d = Some t ->
  traverse_schema (JDict d) p
  = let (t', e) := _traverse_type t p in (JDict (set "items" t' d), e).
Proof.
  intros Ht Hi; rewrite traverse_schema_eq; unfold traverse_schema_body.
  rewrite Ht, Hi; reflexivity.
Qed.

(** A record with a list of fields after a run without exception. *)
Lemma traverse_record_ok (d : dict) (fs : list json) :
  get "type" d = Some (JStr "record") -> get "fields" d = Some (JList fs) ->
  snd (traverse_schema (JDict d) p) = None ->
  exists d1,
    add_alias_to_record d p = (d1, None)
    /\ (forall x, In x fs -> snd (field_body x) = None)
    /\ fst (traverse_schema (JDict d) p)
       = JDict (set "fields" (JList (map (fun x => fst (field_body x)) fs)) d1).
Proof.
  intros Ht Hf; rewrite (traverse_record_eq d fs Ht Hf).
  destruct (add_alias_to_record d p) as [d1 [e|]]; [discriminate|].
  pose proof (for_each_ok field_body fs) as H.
  destruct (for_each field_body fs) as [fs' e]; simpl in *.
  intros ->; destruct (H eq_refl) as [-> Hall]. exists d1; auto.
Qed.

Lemma traverse_array_ok (d : dict) (t : json) :
  get "type" d = Some (JStr "array") -> get "items" d = Some t ->
  snd (traverse_schema (JDict d) p) = None ->
  snd (_traverse_type t p) = None
  /\ fst (traverse_schema (JDict d) p)
     = JDict (set "items" (fst (_traverse_type t p)) d).
Proof.
  intros Ht Hi; rewrite (traverse_array_eq d t Ht Hi).
  destruct (_traverse_type t p) as [t' e]; simpl; intros ->; auto.
Qed.

(** An object is an object after the run. *)
Lemma traverse_schema_dict (d : dict) :
  exists d', fst (traverse_schema (JDict d) p) = JDict d'.
Proof.
  rewrite traverse_schema_eq; unfold traverse_schema_body.
  destruct (get "type" d) as [[| | |t| |]|]; simpl; eauto.
  destruct (t =? "record").
  - destruct (add_alias_to_record d p) as [d1 [e|]]; simpl; eauto.
    destruct (get "fields" d1) as [[| | |n|fs|fd]|]; simpl; eauto.
    + destruct n; simpl; eauto.
    + destruct (for_each _ fs); simpl; eauto.
    + destruct fd; simpl; eauto.
  - destruct (t =? "array"); simpl; eauto.
    destruct (get "items" d) as [items|]; simpl; eauto.
    destruct (_traverse_type items p); simpl; eauto.
Qed.

Lemma traverse_union_ok (l : list json) :
  snd (_traverse_type (JList l) p) = None ->
  (forall x, In x l ->
             snd (traverse_member (fun s => traverse_schema s p) x) = None)
  /\ fst (_traverse_type (JList l) p)
     = JList (map (fun x => fst (traverse_member
                                   (fun s => traverse_schema s p) x)) l).
Proof.
  rewrite _traverse_type_eq.
  pose proof (for_each_ok (traverse_member (fun s => traverse_schema s p)) l) as H.
  destruct (for_each _ l) as [l' e]; simpl in *.
  intros ->; destruct (H eq_refl) as [-> Hall]; auto.
Qed.

(** The run is local: on a run without exception, the node at a place of the
    schema is afterwards the result of the run on that node alone, and that
    run raised nothing. *)
Lemma traversal_local (s : json) (pi : path) (w : json) :
  schema_at s pi w ->
  snd (traverse_schema s p) = None ->
  snd (traverse_schema w p) = None
  /\ node_at pi (fst (traverse_schema s p)) = Some (fst (traverse_schema w p))
  /\ schema_at (fst (traverse_schema s p)) pi (fst (traverse_schema w p)).
Proof.
  intros H; pattern s, pi, w.
  apply schema_at_mut with
    (P0 := fun t pi w =>
             snd (_traverse_type t p) = None ->
             snd (traverse_schema w p) = None
             /\ node_at pi (fst (_traverse_type t p))
                = Some (fst (traverse_schema w p))
             /\ type_at (fst (_traverse_type t p)) pi (fst (traverse_schema w p)));
    try exact H; clear s pi w H.
  - intros s Hs; repeat split; [exact Hs|constructor].
  - intros d fs i f t pi w Ht Hf Hi Hty _ IH Hok.
    destruct (traverse_record_ok d fs Ht Hf Hok) as (d1 & Hd1 & Hall & ->).
    destruct (traverse_field_ok (JDict f) (Hall _ (nth_error_In _ _ Hi)))
      as (f0 & name & t0 & [= <-] & Hn & Ha & Hty0 & Ht0 & Hres).
    rewrite Hty in Hty0; injection Hty0 as <-.
    destruct (IH Ht0) as (Hw & Hnode & Hat).
    assert (Hi' : nth_error (map (fun x => fst (field_body x)) fs) i
                  = Some (JDict
                            (set "type" (fst (_traverse_type t p))
                               (set "aliases"
                                  (JList (alias_list f ++ [JStr (to_snake_case name)]))
                                  f)))).
    { rewrite <- Hres.
      apply (map_nth_error (fun x => fst (field_body x)) _ _ Hi). }
    split; [exact Hw|]. split.
    + simpl. rewrite get_set_same, Hi', get_set_same; exact Hnode.
    + eapply sa_field; [| apply get_set_same | exact Hi' | apply get_set_same | exact Hat].
      rewrite get_set_other by discriminate.
      rewrite <- Ht, <- (add_alias_to_record_get d p "type"), Hd1 by discriminate.
      reflexivity.
  - intros d t pi w Ht Hi _ IH Hok.
    destruct (traverse_array_ok d t Ht Hi Hok) as (Ht0 & ->).
    destruct (IH Ht0) as (Hw & Hnode & Hat).
    split; [exact Hw|]. split.
    + simpl; rewrite get_set_same; exact Hnode.
    + eapply sa_items; [| apply get_set_same | exact Hat].
      rewrite get_set_other by discriminate; exact Ht.
  - intros d pi w _ IH Hok.
    change (_traverse_type (JDict d) p) with (traverse_schema (JDict d) p) in *.
    destruct (IH Hok) as (Hw & Hnode & Hat).
    repeat split; [exact Hw|exact Hnode|].
    destruct (traverse_schema_dict d) as [d' Hd']. rewrite Hd' in *.
    apply ta_dict, Hat.
  - intros l j d pi w Hj _ IH Hok.
    destruct (traverse_union_ok l Hok) as (Hall & ->).
    pose proof (Hall _ (nth_error_In _ _ Hj)) as Hd; simpl in Hd.
    destruct (IH Hd) as (Hw & Hnode & Hat).
    destruct (traverse_schema_dict d) as [d' Hd'].
    assert (Hj' : nth_error
                    (map (fun x => fst (traverse_member
                                          (fun s => traverse_schema s p) x)) l) j
                  = Some (JDict d')).
    { rewrite <- Hd'.
      apply (map_nth_error
               (fun x => fst (traverse_member (fun s => traverse_schema s p) x))
               _ _ Hj). }
    split; [exact Hw|]. split.
    + simpl; rewrite Hj', <- Hd'; exact Hnode.
    + eapply ta_member; [exact Hj'|]. rewrite <- Hd'; exact Hat.
Qed.

End Runs.

(** ** A second run *)

#[local] Arguments traverse_schema : simpl never.
#[local] Arguments _traverse_type : simpl never.

Section SecondRun.
Variable p : string.

#[local] Abbreviation field_body :=
  (traverse_field_body (fun t => _traverse_type t p)).
#[local] Abbreviation member_body :=
  (traverse_member (fun s => traverse_schema s p)).

Lemma traverse_record_leaf (d : dict) :
  get "type" d = Some (JStr "record") -> fields_empty d = true ->
  traverse_schema (JDict d) p
  = (JDict (fst (add_alias_to_record d p)), snd (add_alias_to_record d p)).
Proof.
  intros Ht He; rewrite traverse_schema_eq; unfold traverse_schema_body.
  rewrite Ht, String.eqb_refl.
  pose proof (add_alias_to_record_get d p "fields") as Hg.
  destruct (add_alias_to_record d p) as [d1 [e|]]; simpl in *; [reflexivity|].
  rewrite Hg by discriminate. unfold fields_empty in He.
  destruct (get "fields" d) as [[| | |n|fs|fd]|]; try discriminate; try reflexivity.
  - destruct n; [reflexivity|discriminate].
  - destruct fd; [reflexivity|discriminate].
Qed.

(** A record the run went through has a list of fields or an empty one. *)
Lemma traverse_record_cases (d : dict) :
  get "type" d = Some (JStr "record") ->
  snd (traverse_schema (JDict d) p) = None ->
  (exists fs, get "fields" d = Some (JList fs)) \/ fields_empty d = true.
Proof.
  intros Ht; rewrite traverse_schema_eq; unfold traverse_schema_body, fields_empty.
  rewrite Ht, String.eqb_refl.
  pose proof (add_alias_to_record_get d p "fields") as Hg.
  destruct (add_alias_to_record d p) as [d1 [e|]]; simpl in *; [discriminate|].
  rewrite Hg by discriminate.
  destruct (get "fields" d) as [[| | |n|fs|fd]|]; try discriminate; eauto.
  - destruct n; [auto|discriminate].
  - destruct fd; [auto|discriminate].
Qed.

(** An object that got its record alias gets one again, and so does any
    object with the same [name] and [aliases]. *)
Lemma add_alias_to_record_again (d d1 dd : dict) :
  add_alias_to_record d p = (d1, None) ->
  get "name" dd = get "name" d1 -> get "aliases" dd = get "aliases" d1 ->
  snd (add_alias_to_record dd p) = None.
Proof.
  intros H Hn Ha.
  destruct (add_alias_to_record_inv d d1 p H) as [[Hnone ->]|(name & Hname & _ & ->)].
  - unfold add_alias_to_record; rewrite Hn, Hnone; reflexivity.
  - rewrite get_set_other in Hn by discriminate. rewrite get_set_same in Ha.
    rewrite (add_alias_to_record_ok dd p name); [reflexivity|congruence|].
    unfold aliases_ok; rewrite Ha; reflexivity.
Qed.

Lemma second_type_ok (t : json) :
  (forall w, size w <= size t -> snd (traverse_schema w p) = None ->
             snd (traverse_schema (fst (traverse_schema w p)) p) = None) ->
  snd (_traverse_type t p) = None ->
  snd (_traverse_type (fst (_traverse_type t p)) p) = None.
Proof.
  intros IH Hok. destruct t as [| | | |l|d]; try exact Hok.
  - destruct (traverse_union_ok p l Hok) as (Hall & ->).
    rewrite _traverse_type_eq, for_each_all_ok; [reflexivity|].
    intros y Hy; apply in_map_iff in Hy; destruct Hy as (x & <- & Hx).
    specialize (Hall x Hx). destruct x as [| | | | |dx]; try reflexivity.
    simpl in *. destruct (traverse_schema_dict p dx) as [d' Hd'].
    rewrite Hd'; simpl; rewrite <- Hd'.
    apply IH; [|exact Hall]. pose proof (size_in _ _ Hx); lia.
  - change (_traverse_type (JDict d) p) with (traverse_schema (JDict d) p) in *.
    destruct (traverse_schema_dict p d) as [d' Hd'].
    rewrite Hd'. change (_traverse_type (JDict d') p) with (traverse_schema (JDict d') p).
    rewrite <- Hd'; apply IH; [lia|exact Hok].
Qed.

Lemma second_field_ok (x : json) :
  (forall w, size w < size x -> snd (traverse_schema w p) = None ->
             snd (traverse_schema (fst (traverse_schema w p)) p) = None) ->
  snd (field_body x) = None -> snd (field_body (fst (field_body x))) = None.
Proof.
  intros IH Hok.
  destruct (traverse_field_ok p x Hok)
    as (f & name & t & -> & Hn & Ha & Hty & Ht & ->).
  unfold traverse_field_body at 1.
  rewrite (add_alias_to_field_ok _ name).
  - rewrite get_set_other, get_set_same by discriminate.
    assert (H2 : snd (_traverse_type (fst (_traverse_type t p)) p) = None).
    { apply second_type_ok; [|exact Ht]. intros w Hw; apply IH.
      pose proof (size_get _ _ _ Hty); lia. }
    destruct (_traverse_type (fst (_traverse_type t p)) p); exact H2.
  - rewrite !get_set_other by discriminate; exact Hn.
  - unfold aliases_ok; rewrite get_set_other, get_set_same by discriminate.
    reflexivity.
Qed.

(** A run that raised nothing can be followed by another that raises
    nothing. *)
Lemma second_run_ok (s : json) :
  snd (traverse_schema s p) = None ->
  snd (traverse_schema (fst (traverse_schema s p)) p) = None.
Proof.
  induction s as [s IH] using size_induction; intros Hok.
  destruct s as [| | | | |d]; try discriminate Hok.
  assert (Hsame : fst (traverse_schema (JDict d) p) = JDict d ->
                  snd (traverse_schema (fst (traverse_schema (JDict d) p)) p) = None).
  { intros ->; exact Hok. }
  destruct (get "type" d) as [[| | |ty| |]|] eqn:Ht;
    try (apply Hsame; rewrite traverse_schema_eq; unfold traverse_schema_body;
         rewrite Ht; reflexivity).
  destruct (ty =? "record") eqn:Erec; [|destruct (ty =? "array") eqn:Earr].
  - apply String.eqb_eq in Erec; subst ty.
    destruct (traverse_record_cases d Ht Hok) as [[fs Hf]|He].
    + destruct (traverse_record_ok p d fs Ht Hf Hok) as (d1 & Hd1 & Hall & ->).
      assert (Ht1 : get "type" d1 = Some (JStr "record")).
      { rewrite <- Ht, <- (add_alias_to_record_get d p "type"), Hd1 by discriminate.
        reflexivity. }
      rewrite (traverse_record_eq p _ (map (fun x => fst (field_body x)) fs));
        [| rewrite get_set_other by discriminate; exact Ht1 | apply get_set_same].
      pose proof (add_alias_to_record_again d d1
                    (set "fields" (JList (map (fun x => fst (field_body x)) fs)) d1)
                    Hd1) as Hagain.
      destruct (add_alias_to_record
                  (set "fields" (JList (map (fun x => fst (field_body x)) fs)) d1) p)
        as [dd1 e]; simpl in Hagain.
      rewrite Hagain by (apply get_set_other; discriminate).
      rewrite for_each_all_ok; [reflexivity|].
      intros y Hy; apply in_map_iff in Hy; destruct Hy as (x & <- & Hx).
      apply second_field_ok; [|apply Hall, Hx].
      intros w Hw; apply IH.
      pose proof (size_in _ _ Hx); pose proof (size_get _ _ _ Hf); lia.
    + rewrite (traverse_record_leaf d Ht He) in *; simpl in *.
      destruct (add_alias_to_record d p) as [d1 e] eqn:Hd1; simpl in *; subst e.
      assert (Hk : forall k, k <> "aliases" -> get k d1 = get k d).
      { intros k Hk; rewrite <- (add_alias_to_record_get d p k Hk), Hd1; reflexivity. }
      rewrite traverse_record_leaf.
      * apply (add_alias_to_record_again d d1 d1 Hd1); reflexivity.
      * rewrite Hk by discriminate; exact Ht.
      * unfold fields_empty in *; rewrite Hk by discriminate; exact He.
  - apply String.eqb_eq in Earr; subst ty.
    destruct (get "items" d) as [t|] eqn:Hi.
    + destruct (traverse_array_ok p d t Ht Hi Hok) as (Ht0 & ->).
      rewrite (traverse_array_eq p _ (fst (_traverse_type t p)));
        [| rewrite get_set_other by discriminate; exact Ht | apply get_set_same].
      assert (H2 : snd (_traverse_type (fst (_traverse_type t p)) p) = None).
      { apply second_type_ok; [|exact Ht0]. intros w Hw; apply IH.
        pose proof (size_get _ _ _ Hi); lia. }
      destruct (_traverse_type (fst (_traverse_type t p)) p); exact H2.
    + apply Hsame; rewrite traverse_schema_eq; unfold traverse_schema_body.
      rewrite Ht, Hi; reflexivity.
  - apply Hsame; rewrite traverse_schema_eq; unfold traverse_schema_body.
    rewrite Ht, Erec, Earr; reflexivity.
Qed.

End SecondRun.

(** ** One alias per record and per field, on every run *)

Lemma node_at_app (pi pi' : path) (s : json) :
  node_at (pi ++ pi') s
  = match node_at pi s with
    | Some w => node_at pi' w
    | None => None
    end.
Proof.
  revert s; induction pi as [|[k|i] pi IH]; intros s; simpl; [reflexivity| |].
  - destruct s as [| | | | |d]; try reflexivity.
    destruct (get k d); [apply IH|reflexivity].
  - destruct s as [| | | |l|]; try reflexivity.
    destruct (nth_error l i); [apply IH|reflexivity].
Qed.

Section OnePerRun.
Variable p : string.

#[local] Abbreviation field_body :=
  (traverse_field_body (fun t => _traverse_type t p)).

(** The record a run went through: same [type], same [name], one more
    alias. *)
Lemma traverse_record_aliases (d : dict) (name : string) :
  get "type" d = Some (JStr "record") -> get "name" d = Some (JStr name) ->
  snd (traverse_schema (JDict d) p) = None ->
  exists d',
    fst (traverse_schema (JDict d) p) = JDict d'
    /\ get "type" d' = Some (JStr "record")
    /\ get "name" d' = Some (JStr name)
    /\ get "aliases" d'
       = Some (JList (alias_list d
                        ++ [JStr (to_snake_case (removeprefix p name))])).
Proof.
  intros Ht Hn Hok.
  assert (Hd1 : forall d1, add_alias_to_record d p = (d1, None) ->
                  d1 = set "aliases"
                         (JList (alias_list d
                                   ++ [JStr (to_snake_case (removeprefix p name))]))
                         d).
  { intros d1 H.
    destruct (add_alias_to_record_inv d d1 p H) as [[Hnone _]|(n & Hname & _ & ->)];
      congruence. }
  destruct (traverse_record_cases p d Ht Hok) as [[fs Hf]|He].
  - destruct (traverse_record_ok p d fs Ht Hf Hok) as (d1 & H1 & _ & ->).
    rewrite (Hd1 d1 H1). eexists; split; [reflexivity|].
    rewrite !get_set_other by discriminate. rewrite get_set_same; auto.
  - rewrite (traverse_record_leaf p d Ht He) in *; simpl in *.
    destruct (add_alias_to_record d p) as [d1 e] eqn:H1; simpl in *; subst e.
    rewrite (Hd1 d1 eq_refl). eexists; split; [reflexivity|].
    rewrite !get_set_other by discriminate. rewrite get_set_same; auto.
Qed.

(** The fields of a record a run went through: each is the result of the loop
    body on the field that was there. *)
Lemma traverse_record_fields (d : dict) (fs : list json) :
  get "type" d = Some (JStr "record") -> get "fields" d = Some (JList fs) ->
  snd (traverse_schema (JDict d) p) = None ->
  exists d',
    fst (traverse_schema (JDict d) p) = JDict d'
    /\ get "type" d' = Some (JStr "record")
    /\ get "fields" d' = Some (JList (map (fun x => fst (field_body x)) fs))
    /\ forall x, In x fs -> snd (field_body x) = None.
Proof.
  intros Ht Hf Hok.
  destruct (traverse_record_ok p d fs Ht Hf Hok) as (d1 & H1 & Hall & ->).
  eexists; split; [reflexivity|]. split; [|split; [apply get_set_same|exact Hall]].
  rewrite get_set_other by discriminate.
  rewrite <- Ht, <- (add_alias_to_record_get d p "type"), H1 by discriminate.
  reflexivity.
Qed.

(** The field the loop body went through: same [name], one more alias. *)
Lemma traverse_field_aliases (f : dict) :
  snd (field_body (JDict f)) = None ->
  exists name f',
    fst (field_body (JDict f)) = JDict f'
    /\ get "name" f = Some (JStr name)
    /\ get "name" f' = Some (JStr name)
    /\ get "aliases" f'
       = Some (JList (alias_list f ++ [JStr (to_snake_case name)])).
Proof.
  intros Hok.
  destruct (traverse_field_ok p (JDict f) Hok)
    as (f0 & name & t & [= <-] & Hn & _ & _ & _ & ->).
  exists name; eexists; split; [reflexivity|]. split; [exact Hn|].
  rewrite !get_set_other by discriminate. rewrite get_set_same; auto.
Qed.

(** The alias list of a record after one run and after two. *)
Lemma record_aliases_after_runs (s : json) (pi : path) (d : dict) (name : string) :
  snd (traverse_schema s p) = None ->
  record_at s pi d -> get "name" d = Some (JStr name) ->
  let a := JStr (to_snake_case (removeprefix p name)) in
  aliases_at pi (fst (traverse_schema s p)) = Some (alias_list d ++ [a])
  /\ aliases_at pi (fst (traverse_schema (fst (traverse_schema s p)) p))
     = Some (alias_list d ++ [a; a]).
Proof.
  intros Hok [Hat Ht] Hn a.
  destruct (traversal_local p s pi _ Hat Hok) as (Hw & Hnode & Hat1).
  destruct (traverse_record_aliases d name Ht Hn Hw) as (d' & Hd' & Ht' & Hn' & Ha').
  rewrite Hd' in *.
  destruct (traversal_local p _ pi _ Hat1 (second_run_ok p s Hok))
    as (Hw2 & Hnode2 & _).
  destruct (traverse_record_aliases d' name Ht' Hn' Hw2) as (d2 & Hd2 & _ & _ & Ha2).
  assert (Hl : alias_list d' = alias_list d ++ [a])
    by (unfold alias_list at 1; rewrite Ha'; reflexivity).
  rewrite Hl, <- app_assoc in Ha2.
  unfold aliases_at; rewrite Hnode, Hnode2, Hd2; simpl.
  rewrite Ha', Ha2; auto.
Qed.

(** The alias list of a field after one run and after two. *)
Lemma field_aliases_after_runs (s : json) (pi : path) (f : dict) :
  snd (traverse_schema s p) = None ->
  field_at s pi f ->
  exists name,
    get "name" f = Some (JStr name)
    /\ aliases_at pi (fst (traverse_schema s p))
       = Some (alias_list f ++ [JStr (to_snake_case name)])
    /\ aliases_at pi (fst (traverse_schema (fst (traverse_schema s p)) p))
       = Some (alias_list f
                 ++ [JStr (to_snake_case name); JStr (to_snake_case name)]).
Proof.
  intros Hok (pi0 & d & fs & i & [Hat Ht] & Hf & Hi & ->).
  destruct (traversal_local p s pi0 _ Hat Hok) as (Hw & Hnode & Hat1).
  destruct (traverse_record_fields d fs Ht Hf Hw) as (d' & Hd' & Ht' & Hf' & Hall).
  rewrite Hd' in *.
  destruct (traverse_field_aliases f (Hall _ (nth_error_In _ _ Hi)))
    as (name & f' & Hres & Hn & Hn' & Ha').
  assert (Hi' : nth_error (map (fun x => fst (field_body x)) fs) i = Some (JDict f')).
  { rewrite <- Hres. apply (map_nth_error (fun x => fst (field_body x)) _ _ Hi). }
  destruct (traversal_local p _ pi0 _ Hat1 (second_run_ok p s Hok))
    as (Hw2 & Hnode2 & _).
  destruct (traverse_record_fields d' _ Ht' Hf' Hw2) as (d2 & Hd2 & _ & Hf2 & Hall2).
  rewrite Hd2 in *.
  destruct (traverse_field_aliases f' (Hall2 _ (nth_error_In _ _ Hi')))
    as (name2 & f2 & Hres2 & Hn2 & _ & Ha2).
  assert (name2 = name) by congruence; subst name2.
  assert (Hi2 : nth_error (map (fun x => fst (field_body x))
                             (map (fun x => fst (field_body x)) fs)) i
                = Some (JDict f2)).
  { rewrite <- Hres2. apply (map_nth_error (fun x => fst (field_body x)) _ _ Hi'). }
  assert (Hl : alias_list f' = alias_list f ++ [JStr (to_snake_case name)])
    by (unfold alias_list at 1; rewrite Ha'; reflexivity).
  rewrite Hl, <- app_assoc in Ha2.
  exists name; split; [exact Hn|].
  unfold aliases_at; rewrite !node_at_app, Hnode, Hnode2; simpl.
  rewrite Hf', Hi', Ha', Hf2, Hi2, Ha2; auto.
Qed.

End OnePerRun.

(** C2: aliasing is not idempotent.  A run that raises nothing appends one
    entry to the alias list of every record with a name and of every field
    of the schema; the entries that were there stay, and an absent list
    counts as empty.  A second run on the result raises nothing either and
    appends the same entry again, so that the list ends with it twice. *)
Theorem aliases_grow_by_one_per_run (s s1 : json) (p : string) :
  traverse_schema s p = (s1, None) ->
  exists s2,
    traverse_schema s1 p = (s2, None)
    /\ (forall pi d name,
          record_at s pi d -> get "name" d = Some (JStr name) ->
          let a := JStr (to_snake_case (removeprefix p name)) in
          aliases_at pi s1 = Some (alias_list d ++ [a])
          /\ aliases_at pi s2 = Some (alias_list d ++ [a; a]))
    /\ (forall pi f,
          field_at s pi f ->
          exists name,
            get "name" f = Some (JStr name)
            /\ aliases_at pi s1 = Some (alias_list f ++ [JStr (to_snake_case name)])
            /\ aliases_at pi s2
               = Some (alias_list f
                         ++ [JStr (to_snake_case name); JStr (to_snake_case name)])).
Proof.
  intros H.
  assert (Hok : snd (traverse_schema s p) = None) by (rewrite H; reflexivity).
  assert (Hs1 : s1 = fst (traverse_schema s p)) by (rewrite H; reflexivity).
  pose proof (second_run_ok p s Hok) as Hok2.
  exists (fst (traverse_schema s1 p)); subst s1.
  split; [|split].
  - destruct (traverse_schema (fst (traverse_schema s p)) p) as [s2 e].
    simpl in *; subst e; reflexivity.
  - intros pi d name Hat Hn; apply record_aliases_after_runs; assumption.
  - intros pi f Hat; apply field_aliases_after_runs; assumption.
Qed.

Lemma aliases_grow_by_one_per_run_witness :
  exists s2,
    traverse_schema order_schema_aliased "User" = (s2, None)
    /\ aliases_at [] s2 = Some [JStr "order"; JStr "order"]
    /\ aliases_at [Key "fields"; Index 1; Key "type"; Key "items"] s2
       = Some [JStr "line_item"; JStr "line_item"]
    /\ aliases_at [Key "fields"; Index 1; Key "type"; Key "items";
                   Key "fields"; Index 0] s2
       = Some [JStr "sku_code"; JStr "sku_code"].
Proof.
  assert (Hrun : traverse_schema order_schema "User" = (order_schema_aliased, None))
    by (vm_compute; reflexivity).
  destruct (aliases_grow_by_one_per_run order_schema order_schema_aliased "User" Hrun)
    as (s2 & H2 & Hrec & Hfld).
  assert (Hline :
    record_at order_schema [Key "fields"; Index 1; Key "type"; Key "items"]
      [("type", JStr "record"); ("name", JStr "LineItem");
       ("fields", JList [JDict [("name", JStr "skuCode"); ("type", JStr "string")]])]).
  { split; [|reflexivity].
    eapply (sa_field _ _ 1); [reflexivity..|].
    apply ta_dict. eapply sa_items; [reflexivity..|].
    apply ta_dict, sa_here. }
  exists s2. split; [exact H2|]. split; [|split].
  - exact (proj2 (Hrec [] _ "UserOrder" (conj (sa_here order_schema) eq_refl) eq_refl)).
  - exact (proj2 (Hrec _ _ "LineItem" Hline eq_refl)).
  - destruct (Hfld ([Key "fields"; Index 1; Key "type"; Key "items"]
                      ++ [Key "fields"; Index 0])
                   [("name", JStr "skuCode"); ("type", JStr "string")])
      as (name & Hn & _ & Ha2).
    + eexists _, _, _, 0. split; [exact Hline|]. repeat split.
    + injection Hn as <-. exact Ha2.
Defined.

(** ** Missing keys *)

Lemma for_each_raises (body : json -> outcome json) (l : list json) (e : exn) :
  snd (for_each body l) = Some e ->
  exists i x, nth_error l i = Some x /\ snd (body x) = Some e.
Proof.
  induction l as [|y r IH]; simpl; [discriminate|].
  destruct (body y) as [y' [e'|]] eqn:E; simpl.
  - intros [= ->]; exists 0, y; rewrite E; auto.
  - destruct (for_each body r) as [r' e']; simpl in *.
    intros H; destruct (IH H) as (i & x & Hi & Hx). exists (S i), x; auto.
Qed.

Lemma schema_at_trans (s : json) (pi : path) (w : json) :
  schema_at s pi w ->
  forall pi' u, schema_at w pi' u -> schema_at s (pi ++ pi') u.
Proof.
  intros H; pattern s, pi, w.
  apply schema_at_mut with
    (P0 := fun t pi w =>
             forall pi' u, schema_at w pi' u -> type_at t (pi ++ pi') u);
    try exact H; clear s pi w H.
  - intros s pi' u Hu; exact Hu.
  - intros d fs i f t pi w Ht Hf Hi Hty _ IH pi' u Hu.
    simpl; eapply sa_field; eauto.
  - intros d t pi w Ht Hi _ IH pi' u Hu.
    simpl; eapply sa_items; eauto.
  - intros d pi w _ IH pi' u Hu; apply ta_dict, IH, Hu.
  - intros l j d pi w Hj _ IH pi' u Hu.
    simpl; eapply ta_member; eauto.
Qed.

Lemma field_at_below (s : json) (pi : path) (w : json) (pi' : path) (f : dict) :
  schema_at s pi w -> field_at w pi' f -> field_at s (pi ++ pi') f.
Proof.
  intros Hs (pi0 & d & fs & i & [Hat Ht] & Hf & Hi & ->).
  exists (pi ++ pi0), d, fs, i. repeat split; try assumption.
  - apply (schema_at_trans _ _ _ Hs _ _ Hat).
  - apply app_assoc.
Qed.

Section MissingKeys.
Variable p : string.

#[local] Abbreviation field_body :=
  (traverse_field_body (fun t => _traverse_type t p)).
#[local] Abbreviation member_body :=
  (traverse_member (fun s => traverse_schema s p)).

(** An exception of the type dispatch is an exception of a run on the object
    itself or on an object of the union. *)
Lemma traverse_type_raises (t : json) (e : exn) :
  snd (_traverse_type t p) = Some e ->
  exists pi d,
    type_at t pi (JDict d) /\ size (JDict d) <= size t
    /\ snd (traverse_schema (JDict d) p) = Some e
    /\ (t = JDict d \/ exists l, t = JList l /\ In (JDict d) l).
Proof.
  rewrite _traverse_type_eq. destruct t as [| | | |l|d]; try discriminate.
  - pose proof (for_each_raises member_body l e) as H.
    destruct (for_each member_body l) as [l' e']; simpl in *.
    intros He; destruct (H He) as (j & x & Hj & Hx).
    destruct x as [| | | | |d]; try discriminate.
    exists [Index j], d. split; [|split; [|split]].
    + eapply ta_member; [exact Hj|apply sa_here].
    + pose proof (size_nth _ _ _ Hj); lia.
    + exact Hx.
    + right; exists l; split; [reflexivity|apply (nth_error_In _ _ Hj)].
  - intros He; exists [], d.
    split; [apply ta_dict, sa_here|]. split; [lia|]. split; [exact He|auto].
Qed.

(** An exception of the loop body is the missing [name], the missing [type],
    an exception of the adder that is no [KeyError], or an exception of the
    dispatch on the field's type. *)
Lemma traverse_field_raises (x : json) (e : exn) :
  snd (field_body x) = Some e ->
  (exists f, x = JDict f /\ get "name" f = None /\ e = KeyError "name")
  \/ (exists f, x = JDict f /\ get "type" f = None /\ e = KeyError "type")
  \/ (snd (add_alias_to_field x) = Some e /\ (e = TypeError \/ e = AttributeError))
  \/ (exists f t, x = JDict f /\ get "type" f = Some t
                  /\ snd (_traverse_type t p) = Some e).
Proof.
  unfold traverse_field_body.
  destruct (add_alias_to_field x) as [f1 [e1|]] eqn:E; simpl.
  - intros [= ->]. revert E; unfold add_alias_to_field, append_alias.
    destruct x as [| | | | |f];
      try solve [intros [= _ <-]; right; right; left; split;
                 [reflexivity|auto]].
    destruct (get "name" f) as [[| | |n| |]|] eqn:En;
      try solve [intros [= _ <-]; right; right; left; split;
                 [reflexivity|auto]].
    + destruct (get "aliases" f) as [[| | | |l|]|]; intros [= _ <-];
        right; right; left; split; solve [reflexivity|auto].
    + intros [= _ <-]; left; exists f; auto.
  - destruct (add_alias_to_field_inv x f1 E) as (f & name & -> & Hn & Ha & ->).
    rewrite get_set_other by discriminate.
    destruct (get "type" f) as [t|] eqn:Ht.
    + destruct (_traverse_type t p) as [t' e'] eqn:Et; simpl.
      intros ->; right; right; right. exists f, t; rewrite Et; auto.
    + intros [= <-]; right; left; exists f; auto.
Qed.

(** The exceptions of a run on an object. *)
Lemma traverse_schema_raises (d : dict) (e : exn) :
  snd (traverse_schema (JDict d) p) = Some e ->
  (get "type" d = Some (JStr "record")
   /\ (snd (add_alias_to_record d p) = Some e /\ e = AttributeError
       \/ (fields_ok d = false /\ e = TypeError)
       \/ exists fs, get "fields" d = Some (JList fs)
                     /\ snd (for_each field_body fs) = Some e))
  \/ (get "type" d = Some (JStr "array")
      /\ exists t, get "items" d = Some t /\ snd (_traverse_type t p) = Some e).
Proof.
  rewrite traverse_schema_eq; unfold traverse_schema_body, fields_ok.
  destruct (get "type" d) as [[| | |ty| |]|]; try discriminate.
  destruct (ty =? "record") eqn:Erec; [|destruct (ty =? "array") eqn:Earr].
  - apply String.eqb_eq in Erec; subst ty.
    pose proof (add_alias_to_record_get d p "fields") as Hg.
    assert (Hattr : forall e1, snd (add_alias_to_record d p) = Some e1 ->
                               e1 = AttributeError).
    { unfold add_alias_to_record, append_alias.
      destruct (get "name" d) as [[| | |n| |]|]; simpl; try congruence.
      destruct (get "aliases" d) as [[| | | |l|]|]; simpl; congruence. }
    destruct (add_alias_to_record d p) as [d1 [e1|]]; simpl in *.
    + intros [= <-]; left; split; [reflexivity|]; left; auto.
    + rewrite Hg by discriminate.
      destruct (get "fields" d) as [[| | |n|fs|fd]|]; try discriminate;
        try solve [intros [= <-]; left; split; [reflexivity|]; right; left;
                   split; reflexivity].
      * destruct n; [discriminate|].
        intros [= <-]; left; split; [reflexivity|]; right; left; split; reflexivity.
      * destruct (for_each field_body fs) as [fs' e'] eqn:Efs; simpl.
        intros ->; left; split; [reflexivity|]; right; right; exists fs.
        rewrite Efs; split; reflexivity.
      * destruct fd; [discriminate|].
        intros [= <-]; left; split; [reflexivity|]; right; left; split; reflexivity.
  - apply String.eqb_eq in Earr; subst ty.
    destruct (get "items" d) as [t|]; [|discriminate].
    destruct (_traverse_type t p) as [t' e'] eqn:Et; simpl.
    intros ->; right; split; [reflexivity|].
    exists t; rewrite Et; split; reflexivity.
  - discriminate.
Qed.

(** A [KeyError] comes from a field that lacks the key. *)
Lemma key_error_source (s : json) (k : string) :
  snd (traverse_schema s p) = Some (KeyError k) ->
  exists pi f, field_at s pi f /\ get k f = None /\ (k = "name" \/ k = "type").
Proof.
  induction s as [s IH] using size_induction; intros Hk.
  assert (Htype : forall t pi0,
            (forall pi w, type_at t pi w -> schema_at s (pi0 ++ pi) w) ->
            size t < size s ->
            snd (_traverse_type t p) = Some (KeyError k) ->
            exists pi f, field_at s pi f /\ get k f = None
                         /\ (k = "name" \/ k = "type")).
  { intros t pi0 Hin Hsz Ht.
    destruct (traverse_type_raises t _ Ht) as (pi1 & d1 & Hat & Hsz1 & H1 & _).
    destruct (IH (JDict d1) ltac:(lia) H1) as (pi2 & f & Hf & Hlack).
    exists ((pi0 ++ pi1) ++ pi2), f; split; [|exact Hlack].
    apply (field_at_below _ _ (JDict d1)); [apply Hin, Hat|exact Hf]. }
  destruct s as [| | | | |d]; try discriminate Hk.
  destruct (traverse_schema_raises d _ Hk)
    as [[Ht [[_ He]|[[_ He]|(fs & Hf & Hfs)]]]|[Ht (t & Hi & Hti)]];
    try discriminate He.
  - destruct (for_each_raises _ _ _ Hfs) as (i & x & Hi & Hx).
    assert (Hrec : record_at (JDict d) [] d) by (split; [apply sa_here|exact Ht]).
    destruct (traverse_field_raises x _ Hx)
      as [(f & -> & Hn & [= ->])|[(f & -> & Hty & [= ->])
          |[(_ & [He|He])|(f & t & -> & Hty & Hti)]]];
      try discriminate He.
    + exists ([] ++ [Key "fields"; Index i]), f; split; [|auto].
      exists [], d, fs, i; auto.
    + exists ([] ++ [Key "fields"; Index i]), f; split; [|auto].
      exists [], d, fs, i; auto.
    + apply (Htype t [Key "fields"; Index i; Key "type"]); [| |exact Hti].
      * intros pi w Hw; simpl; eapply sa_field; eauto.
      * pose proof (size_get _ _ _ Hty); pose proof (size_nth _ _ _ Hi).
        pose proof (size_get _ _ _ Hf); lia.
  - apply (Htype t [Key "items"]); [| |exact Hti].
    + intros pi w Hw; simpl; eapply sa_items; eauto.
    + apply (size_get _ _ _ Hi).
Qed.

Lemma well_typed_get (d : dict) (k : string) (v : json) :
  well_typed (JDict d) = true -> get k d = Some v -> well_typed v = true.
Proof.
  simpl; intros H; apply andb_true_iff in H; destruct H as [_ H].
  induction d as [|[k' w] r IH]; simpl in *; [discriminate|].
  apply andb_true_iff in H; destruct H as [Hw Hr].
  destruct (k =? k'); [intros [= <-]; exact Hw|apply IH, Hr].
Qed.

Lemma well_typed_in (l : list json) (x : json) :
  well_typed (JList l) = true -> In x l -> well_typed x = true.
Proof. simpl; intros H Hx; rewrite forallb_forall in H; apply H, Hx. Qed.

Lemma well_typed_dict (d : dict) :
  well_typed (JDict d) = true ->
  name_ok d = true /\ aliases_ok d = true /\ fields_ok d = true.
Proof.
  simpl; intros H; repeat (apply andb_true_iff in H; destruct H as [H ?]); auto.
Qed.

Lemma add_alias_to_record_typed (d : dict) :
  name_ok d = true -> aliases_ok d = true -> snd (add_alias_to_record d p) = None.
Proof.
  unfold name_ok, add_alias_to_record; intros Hn Ha.
  destruct (get "name" d) as [[| | |n| |]|]; try discriminate; [|reflexivity].
  rewrite (append_alias_ok _ _ Ha); reflexivity.
Qed.

Lemma add_alias_to_field_typed (f : dict) :
  name_ok f = true -> aliases_ok f = true ->
  snd (add_alias_to_field (JDict f)) = None
  \/ snd (add_alias_to_field (JDict f)) = Some (KeyError "name").
Proof.
  unfold name_ok, add_alias_to_field; intros Hn Ha.
  destruct (get "name" f) as [[| | |n| |]|]; try discriminate; [|auto].
  rewrite (append_alias_ok _ _ Ha); auto.
Qed.

(** In a document whose values have the types of the data model, the run can
    raise nothing but the two [KeyError]s. *)
Lemma only_key_errors (s : json) (e : exn) :
  is_dict s = true -> well_typed s = true ->
  snd (traverse_schema s p) = Some e ->
  e = KeyError "name" \/ e = KeyError "type".
Proof.
  revert e; induction s as [s IH] using size_induction; intros e Hd Hwt He.
  assert (Htype : forall t, well_typed t = true -> size t < size s ->
                            snd (_traverse_type t p) = Some e ->
                            e = KeyError "name" \/ e = KeyError "type").
  { intros t Hwt_t Hsz Ht.
    destruct (traverse_type_raises t _ Ht)
      as (pi1 & d1 & _ & Hsz1 & H1 & [->|(l & -> & Hin)]).
    - apply (IH (JDict d1)); auto.
    - apply (IH (JDict d1)); [lia|reflexivity| |exact H1].
      apply (well_typed_in l _ Hwt_t Hin). }
  destruct s as [| | | | |d]; try discriminate Hd.
  destruct (well_typed_dict d Hwt) as (Hn & Ha & Hfo).
  destruct (traverse_schema_raises d _ He)
    as [[Ht [[Hr _]|[[Hbad _]|(fs & Hf & Hfs)]]]|[Ht (t & Hi & Hti)]].
  - rewrite (add_alias_to_record_typed d Hn Ha) in Hr; discriminate.
  - congruence.
  - destruct (for_each_raises _ _ _ Hfs) as (i & x & Hi & Hx).
    assert (Hwx : well_typed x = true).
    { apply (well_typed_in fs); [|apply (nth_error_In _ _ Hi)].
      apply (well_typed_get d "fields"); assumption. }
    destruct (traverse_field_raises x _ Hx)
      as [(f & _ & _ & ->)|[(f & _ & _ & ->)
          |[(Hadd & Hkind)|(f & t & -> & Hty & Hti)]]]; auto.
    + unfold fields_ok in Hfo; rewrite Hf in Hfo.
      rewrite forallb_forall in Hfo.
      specialize (Hfo x (nth_error_In _ _ Hi)).
      destruct x as [| | | | |f]; try discriminate.
      destruct (well_typed_dict f Hwx) as (Hfn & Hfa & _).
      destruct (add_alias_to_field_typed f Hfn Hfa) as [H|H];
        rewrite H in Hadd; [discriminate|].
      injection Hadd as <-; destruct Hkind; discriminate.
    + apply (Htype t); [apply (well_typed_get f "type"); assumption| |exact Hti].
      pose proof (size_get _ _ _ Hty); pose proof (size_nth _ _ _ Hi).
      pose proof (size_get _ _ _ Hf); lia.
  - apply (Htype t); [apply (well_typed_get d "items"); assumption| |exact Hti].
    apply (size_get _ _ _ Hi).
Qed.

(** A field of the schema that lacks [name] or [type] stops the run. *)
Lemma missing_key_raises (s : json) (pi : path) (f : dict) :
  field_at s pi f -> get "name" f = None \/ get "type" f = None ->
  snd (traverse_schema s p) <> None.
Proof.
  intros (pi0 & d & fs & i & [Hat Ht] & Hf & Hi & _) Hlack Hok.
  destruct (traversal_local p s pi0 _ Hat Hok) as (Hw & _ & _).
  destruct (traverse_record_ok p d fs Ht Hf Hw) as (_ & _ & Hall & _).
  destruct (traverse_field_ok p _ (Hall _ (nth_error_In _ _ Hi)))
    as (f0 & name & t & [= <-] & Hn & _ & Hty & _).
  destruct Hlack; congruence.
Qed.

End MissingKeys.

(** C7: a run on a record raises [KeyError], which nothing catches, exactly
    when a field of the schema, of the record itself or of a record reached
    from it, lacks [name] or [type]; the key of the exception is one the
    field lacks.  [add_alias_to_field] raises it for [name] and the loop of
    [traverse_schema] for [type].  The values that are present are taken to
    have the types of the data model; the run then raises nothing else. *)
Theorem key_error_exactly_when_field_lacks_key (d : dict) (p : string) :
  well_typed (JDict d) = true ->
  ((exists k, snd (add_aliases_to_avro_schema (JDict d) p) = Some (KeyError k))
   <-> (exists pi f, field_at (JDict d) pi f
                     /\ (get "name" f = None \/ get "type" f = None)))
  /\ (forall k, snd (add_aliases_to_avro_schema (JDict d) p) = Some (KeyError k) ->
                exists pi f, field_at (JDict d) pi f /\ get k f = None
                             /\ (k = "name" \/ k = "type"))
  /\ (forall e, snd (add_aliases_to_avro_schema (JDict d) p) = Some e ->
                e = KeyError "name" \/ e = KeyError "type")
  /\ (forall f, get "name" f = None ->
                add_alias_to_field (JDict f) = (JDict f, Some (KeyError "name")))
  /\ (forall f name, get "name" f = Some (JStr name) -> aliases_ok f = true ->
                     get "type" f = None ->
                     snd (traverse_field (fun t => _traverse_type t p) (JDict f))
                     = Some (KeyError "type")).
Proof.
  unfold add_aliases_to_avro_schema; intros Hwt.
  split; [split|split; [|split; [|split]]].
  - intros [k Hk]. destruct (key_error_source p _ k Hk) as (pi & f & Hf & Hg & [-> | ->]);
      exists pi, f; auto.
  - intros (pi & f & Hf & Hlack).
    pose proof (missing_key_raises p _ pi f Hf Hlack) as Hne.
    destruct (snd (traverse_schema (JDict d) p)) as [e|] eqn:He; [|contradiction].
    destruct (only_key_errors p (JDict d) e eq_refl Hwt He) as [-> | ->]; eauto.
  - intros k; apply key_error_source.
  - intros e; apply only_key_errors; [reflexivity|exact Hwt].
  - intros f Hn; unfold add_alias_to_field; rewrite Hn; reflexivity.
  - intros f name Hn Ha Hty. rewrite traverse_field_eq; unfold traverse_field_body.
    rewrite (add_alias_to_field_ok f name Hn Ha).
    rewrite get_set_other, Hty by discriminate; reflexivity.
Qed.

Lemma key_error_exactly_when_field_lacks_key_witness :
  exists k,
    snd (add_aliases_to_avro_schema
           (JDict [("type", JStr "record"); ("name", JStr "UserOrder");
                   ("fields", JList [JDict [("name", JStr "orderId");
                                            ("type", JStr "string")];
                                     JDict [("name", JStr "total")]])])
           "User")
    = Some (KeyError k).
Proof.
  apply (proj1 (key_error_exactly_when_field_lacks_key
                  [("type", JStr "record"); ("name", JStr "UserOrder");
                   ("fields", JList [JDict [("name", JStr "orderId");
                                            ("type", JStr "string")];
                                     JDict [("name", JStr "total")]])]
                  "User" eq_refl)).
  exists ([] ++ [Key "fields"; Index 1]), [("name", JStr "total")].
  split; [|right; reflexivity].
  eexists [], _, _, 1. split; [split; [apply sa_here|reflexivity]|].
  repeat split.
Defined.

(** ** Where the traversal does not go *)

(** A record under the [values] of a map is not reached, and a record without
    a [name] gets no alias. *)
Example map_values_not_visited :
  traverse_schema
    (JDict [("type", JStr "record"); ("name", JStr "Basket");
            ("fields",
             JList [JDict [("name", JStr "byKey");
                           ("type",
                            JDict [("type", JStr "map");
                                   ("values",
                                    JDict [("type", JStr "record");
                                           ("name", JStr "LineItem");
                                           ("fields", JList [])])])]])])
    ""
  = (JDict [("type", JStr "record"); ("name", JStr "Basket");
            ("fields",
             JList [JDict [("name", JStr "byKey");
                           ("type",
                            JDict [("type", JStr "map");
                                   ("values",
                                    JDict [("type", JStr "record");
                                           ("name", JStr "LineItem");
                                           ("fields", JList [])])]);
                           ("aliases", JList [JStr "by_key"])]]);
            ("aliases", JList [JStr "basket"])], None).
Proof. vm_compute; reflexivity. Qed.

Example record_without_name :
  traverse_schema (JDict [("type", JStr "record"); ("fields", JList [])]) "User"
  = (JDict [("type", JStr "record"); ("fields", JList [])], None).
Proof. vm_compute; reflexivity. Qed.

(** An object of a union is traversed, a bare type name is not. *)
Example union_with_record :
  traverse_schema
    (JDict [("type", JStr "record"); ("name", JStr "UserOrder");
            ("fields",
             JList [JDict [("name", JStr "shipTo");
                           ("type",
                            JList [JStr "null";
                                   JDict [("type", JStr "record");
                                          ("name", JStr "UserAddress");
                                          ("fields", JList [])]])]])])
    "User"
  = (JDict [("type", JStr "record"); ("name", JStr "UserOrder");
            ("fields",
             JList [JDict [("name", JStr "shipTo");
                           ("type",
                            JList [JStr "null";
                                   JDict [("type", JStr "record");
                                          ("name", JStr "UserAddress");
                                          ("fields", JList []);
                                          ("aliases", JList [JStr "address"])]]);
                           ("aliases", JList [JStr "ship_to"])]]);
            ("aliases", JList [JStr "order"])], None).
Proof. vm_compute; reflexivity. Qed.

(** The tree is left as it was when the exception was raised: the fields
    before the one that lacks [type] have their alias, and so has that one. *)
Example state_at_key_error :
  traverse_schema
    (JDict [("type", JStr "record"); ("name", JStr "UserOrder");
            ("fields", JList [JDict [("name", JStr "orderId");
                                     ("type", JStr "string")];
                              JDict [("name", JStr "total")];
                              JDict [("name", JStr "paidAt");
                                     ("type", JStr "long")]])])
    "User"
  = (JDict [("type", JStr "record"); ("name", JStr "UserOrder");
            ("fields", JList [JDict [("name", JStr "orderId");
                                     ("type", JStr "string");
                                     ("aliases", JList [JStr "order_id"])];
                              JDict [("name", JStr "total");
                                     ("aliases", JList [JStr "total"])];
                              JDict [("name", JStr "paidAt");
                                     ("type", JStr "long")]]);
            ("aliases", JList [JStr "order"])],
     Some (KeyError "type")).
Proof. vm_compute; reflexivity. Qed.

(** * Further properties of the code *)

(** ** [to_snake_case] *)

Lemma lower_length (s : string) : String.length (lower s) = String.length s.
Proof. induction s as [|c r IH]; simpl; [reflexivity|rewrite IH; reflexivity]. Qed.

Lemma sub_underscore_length (s : string) :
  String.length (sub_underscore false s) = String.length s + count_chars is_upper s.
Proof.
  induction s as [|c r IH]; simpl; [reflexivity|].
  destruct (is_upper c); simpl; rewrite IH; lia.
Qed.

(** X1: on an ASCII string, where [lower] is [str.lower], the result of
    [to_snake_case] is longer than its argument by one character for each
    uppercase letter after position 0. *)
Theorem to_snake_case_length (s : string) :
  all_chars is_ascii s = true ->
  String.length (to_snake_case s) = String.length s + internal_uppers s.
Proof.
  intros _; unfold to_snake_case; rewrite lower_length.
  destruct s as [|c r]; simpl; [reflexivity|].
  rewrite sub_underscore_length; reflexivity.
Qed.

Lemma to_snake_case_length_witness :
  String.length (to_snake_case "HTTPServer_v2") = 13 + 4.
Proof. exact (to_snake_case_length "HTTPServer_v2" eq_refl). Defined.

(** X2: on an ASCII string, where [lower] is [str.lower], [to_snake_case]
    returns its argument as it is exactly when the argument has no uppercase
    letter. *)
Theorem to_snake_case_unchanged_iff (s : string) :
  all_chars is_ascii s = true ->
  (to_snake_case s = s <-> all_chars not_upper s = true).
Proof.
  intros _; split.
  - intros H; rewrite <- H; unfold to_snake_case; apply lower_no_upper.
  - apply to_snake_case_fixed.
Qed.

Lemma to_snake_case_unchanged_iff_witness :
  to_snake_case "order_id2" = "order_id2".
Proof.
  exact (proj2 (to_snake_case_unchanged_iff "order_id2" eq_refl) eq_refl).
Defined.

Lemma lower_append (s t : string) : lower (s ++ t)%string = (lower s ++ lower t)%string.
Proof. induction s as [|c r IH]; simpl; [reflexivity|rewrite IH; reflexivity]. Qed.

Lemma sub_underscore_append (b : bool) (c : ascii) (s t : string) :
  sub_underscore b (String c s ++ t)%string
  = (sub_underscore b (String c s) ++ sub_underscore false t)%string.
Proof.
  revert b c; induction s as [|c' r IH]; intros b c.
  - simpl. destruct (negb b && is_upper c); reflexivity.
  - change (String c (String c' r) ++ t)%string
      with (String c (String c' r ++ t)%string).
    change (sub_underscore b (String c (String c' r ++ t)%string))
      with (if negb b && is_upper c
            then String "_" (String c (sub_underscore false (String c' r ++ t)%string))
            else String c (sub_underscore false (String c' r ++ t)%string)).
    rewrite IH.
    change (sub_underscore b (String c (String c' r)))
      with (if negb b && is_upper c
            then String "_" (String c (sub_underscore false (String c' r)))
            else String c (sub_underscore false (String c' r))).
    destruct (negb b && is_upper c); reflexivity.
Qed.

Lemma sub_underscore_inner (t : string) :
  sub_underscore false t
  = ((if starts_upper t then "_" else "") ++ sub_underscore true t)%string.
Proof. destruct t as [|c r]; simpl; [reflexivity|]. destruct (is_upper c); reflexivity. Qed.

(** X3: on ASCII strings, where [lower] is [str.lower], [to_snake_case] of a
    concatenation whose first part is not empty is the concatenation of the
    two results, with a separator between them when the second part begins
    with an uppercase letter.  So the alias of a record whose name begins
    with the prefix is the snake_case name without the snake_case prefix and
    the separator. *)
Theorem to_snake_case_append (p r : string) :
  all_chars is_ascii p = true -> all_chars is_ascii r = true ->
  p <> "" ->
  to_snake_case (p ++ r)%string
  = (to_snake_case p ++ (if starts_upper r then "_" else "") ++ to_snake_case r)%string
  /\ to_snake_case (p ++ r)%string
     = (to_snake_case p ++ (if starts_upper r then "_" else "")
          ++ to_snake_case (removeprefix p (p ++ r)))%string.
Proof.
  intros _ _ Hp.
  assert (E : to_snake_case (p ++ r)%string
              = (to_snake_case p ++ (if starts_upper r then "_" else "")
                   ++ to_snake_case r)%string).
  { destruct p as [|c p]; [contradiction Hp; reflexivity|].
    unfold to_snake_case.
    rewrite sub_underscore_append, lower_append, sub_underscore_inner, lower_append.
    destruct (starts_upper r); reflexivity. }
  split; [exact E|]. rewrite removeprefix_append; exact E.
Qed.

Lemma to_snake_case_append_witness :
  to_snake_case "UserOrderCreated"
  = (to_snake_case "User" ++ "_" ++ to_snake_case "OrderCreated")%string.
Proof.
  exact (proj1 (to_snake_case_append "User" "OrderCreated" eq_refl eq_refl
                  ltac:(discriminate))).
Defined.

Lemma remove_separators_lower (s : string) :
  remove_chars is_separator (lower s) = lower (remove_chars is_separator s).
Proof.
  induction s as [|c r IH]; simpl; [reflexivity|].
  rewrite is_separator_lower_char.
  destruct (is_separator c); simpl; rewrite IH; reflexivity.
Qed.

Lemma remove_separators_sub_underscore (b : bool) (s : string) :
  remove_chars is_separator (sub_underscore b s) = remove_chars is_separator s.
Proof.
  revert b; induction s as [|c r IH]; intros b; simpl; [reflexivity|].
  destruct (negb b && is_upper c); simpl; rewrite (IH false); reflexivity.
Qed.

(** X4: an ASCII name, where [lower] is [str.lower], can be read back from
    its alias up to case and separators: the alias without its separators is
    the lowercased name without its separators. *)
Theorem to_snake_case_without_separators (s : string) :
  all_chars is_ascii s = true ->
  remove_chars is_separator (to_snake_case s)
  = lower (remove_chars is_separator s).
Proof.
  intros _; unfold to_snake_case.
  rewrite remove_separators_lower, remove_separators_sub_underscore; reflexivity.
Qed.

Lemma to_snake_case_without_separators_witness :
  remove_chars is_separator (to_snake_case "lineItem_Id") = "lineitemid".
Proof. exact (to_snake_case_without_separators "lineItem_Id" eq_refl). Defined.

(** ** The adders *)

(** X5: [add_alias_to_record] raises nothing exactly when the record has no
    [name], or has a string [name] and no [aliases] or a list of them.  What
    it raises otherwise is [AttributeError], and the record is then as it
    was. *)
Theorem add_alias_to_record_failure (schema : dict) (p : string) :
  (snd (add_alias_to_record schema p) = None
   <-> get "name" schema = None
       \/ ((exists name, get "name" schema = Some (JStr name))
           /\ aliases_ok schema = true))
  /\ (forall e, snd (add_alias_to_record schema p) = Some e ->
                e = AttributeError /\ fst (add_alias_to_record schema p) = schema).
Proof.
  unfold add_alias_to_record, append_alias, aliases_ok.
  destruct (get "name" schema) as [[| | |n| |]|]; simpl;
    try (split; [split; [discriminate|intros [H|[[n' H] _]]; discriminate H]
                |intros e [= <-]; auto]).
  - destruct (get "aliases" schema) as [[| | | |l|]|]; simpl;
      try (split; [split; [discriminate|intros [H|[_ H]]; discriminate H]
                  |intros e [= <-]; auto]);
      (split; [split; [intros _; right; eauto|reflexivity]|discriminate]).
  - split; [split; auto|discriminate].
Qed.

Lemma add_alias_to_record_failure_witness :
  fst (add_alias_to_record [("type", JStr "record"); ("name", JNum 7)] "User")
  = [("type", JStr "record"); ("name", JNum 7)].
Proof.
  exact (proj2 (proj2 (add_alias_to_record_failure
                         [("type", JStr "record"); ("name", JNum 7)] "User")
                  AttributeError eq_refl)).
Defined.

(** X6: when [add_alias_to_field] raises, the field is as it was, and the
    exception tells why: [KeyError] for a dict without [name], [TypeError]
    for a field that is no dict or a [name] that is no string, and
    [AttributeError] for [aliases] that are no list. *)
Theorem add_alias_to_field_failure (field : json) (e : exn) :
  snd (add_alias_to_field field) = Some e ->
  fst (add_alias_to_field field) = field
  /\ ((e = KeyError "name" /\ exists f, field = JDict f /\ get "name" f = None)
      \/ (e = TypeError
          /\ (is_dict field = false
              \/ exists f, field = JDict f /\ name_ok f = false))
      \/ (e = AttributeError
          /\ exists f name, field = JDict f /\ get "name" f = Some (JStr name)
                            /\ aliases_ok f = false)).
Proof.
  unfold add_alias_to_field, append_alias, name_ok, aliases_ok.
  destruct field as [| | | | |f]; simpl;
    try (intros [= <-]; split; [reflexivity|right; left; auto]).
  destruct (get "name" f) as [[| | |n| |]|] eqn:En; simpl;
    try (intros [= <-]; split; [reflexivity|right; left; split; [reflexivity|]];
         right; exists f; rewrite En; auto).
  - destruct (get "aliases" f) as [[| | | |l|]|] eqn:Ea; simpl; try discriminate;
      intros [= <-]; (split; [reflexivity|right; right; split; [reflexivity|]]);
      exists f, n; rewrite Ea; auto.
  - intros [= <-]; split; [reflexivity|left; split; [reflexivity|]].
    exists f; auto.
Qed.

Lemma add_alias_to_field_failure_witness :
  fst (add_alias_to_field (JDict [("name", JStr "orderId"); ("aliases", JStr "id")]))
  = JDict [("name", JStr "orderId"); ("aliases", JStr "id")].
Proof.
  exact (proj1 (add_alias_to_field_failure
                  (JDict [("name", JStr "orderId"); ("aliases", JStr "id")])
                  AttributeError eq_refl)).
Defined.

(** ** One node *)

(** X7: an object whose [type] is neither "record" nor "array" (an enum, a
    fixed, a map, a type given by name, a type that is no string, no type at
    all) is left as it is, and nothing is raised. *)
Theorem other_types_untouched (d : dict) (p : string) :
  get "type" d <> Some (JStr "record") -> get "type" d <> Some (JStr "array") ->
  traverse_schema (JDict d) p = (JDict d, None).
Proof.
  intros Hr Ha; rewrite traverse_schema_eq; unfold traverse_schema_body.
  destruct (get "type" d) as [[| | |t| |]|]; try reflexivity.
  destruct (t =? "record") eqn:Er; [apply String.eqb_eq in Er; congruence|].
  destruct (t =? "array") eqn:Ea; [apply String.eqb_eq in Ea; congruence|].
  reflexivity.
Qed.

Lemma other_types_untouched_witness :
  traverse_schema
    (JDict [("type", JStr "map"); ("name", JStr "ByKey");
            ("values", JDict [("type", JStr "record"); ("name", JStr "LineItem")])])
    "User"
  = (JDict [("type", JStr "map"); ("name", JStr "ByKey");
            ("values", JDict [("type", JStr "record"); ("name", JStr "LineItem")])],
     None).
Proof.
  apply other_types_untouched; discriminate.
Defined.

(** X8: a run writes three entries of an object at most: [aliases], [fields]
    and [items].  Every other entry is the same afterwards, whether the run
    raised or not.  Only a record has its [aliases] written, so an array gets
    no alias, even when it has a [name]; only an array has its [items]
    written. *)
Theorem node_entries_frame (d : dict) (p : string) :
  exists d',
    fst (traverse_schema (JDict d) p) = JDict d'
    /\ (forall k, k <> "aliases" -> k <> "fields" -> k <> "items" ->
                  get k d' = get k d)
    /\ (get "type" d <> Some (JStr "record") ->
        get "aliases" d' = get "aliases" d /\ get "fields" d' = get "fields" d)
    /\ (get "type" d <> Some (JStr "array") -> get "items" d' = get "items" d).
Proof.
  rewrite traverse_schema_eq; unfold traverse_schema_body.
  assert (Hsame : exists d', JDict d = JDict d'
            /\ (forall k, k <> "aliases" -> k <> "fields" -> k <> "items" ->
                          get k d' = get k d)
            /\ (get "type" d <> Some (JStr "record") ->
                get "aliases" d' = get "aliases" d
                /\ get "fields" d' = get "fields" d)
            /\ (get "type" d <> Some (JStr "array") ->
                get "items" d' = get "items" d)) by (exists d; auto).
  destruct (get "type" d) as [[| | |t| |]|] eqn:Ht; try exact Hsame.
  destruct (t =? "record") eqn:Er; [|destruct (t =? "array") eqn:Ea].
  - apply String.eqb_eq in Er; subst t.
    pose proof (add_alias_to_record_get d p) as Hg.
    destruct (add_alias_to_record d p) as [d1 [e|]]; simpl in Hg.
    + exists d1; split; [reflexivity|]. split; [intros k Hk _ _; apply Hg, Hk|].
      split; [congruence|]. intros _; apply Hg; discriminate.
    + assert (Hd1 : exists d', JDict d1 = JDict d'
                /\ (forall k, k <> "aliases" -> k <> "fields" -> k <> "items" ->
                              get k d' = get k d)
                /\ (Some (JStr "record") <> Some (JStr "record") ->
                    get "aliases" d' = get "aliases" d
                    /\ get "fields" d' = get "fields" d)
                /\ (Some (JStr "record") <> Some (JStr "array") ->
                    get "items" d' = get "items" d)).
      { exists d1; split; [reflexivity|]. split; [intros k Hk _ _; apply Hg, Hk|].
        split; [congruence|]. intros _; apply Hg; discriminate. }
      destruct (get "fields" d1) as [[| | |n|fs|fd]|]; try exact Hd1.
      * destruct n; exact Hd1.
      * destruct (for_each _ fs) as [fs' e]; simpl.
        eexists; split; [reflexivity|]. split; [|split; [congruence|]].
        -- intros k Hk Hf _. rewrite get_set_other by congruence. apply Hg, Hk.
        -- intros _. rewrite get_set_other by discriminate. apply Hg; discriminate.
      * destruct fd; exact Hd1.
  - apply String.eqb_eq in Ea; subst t.
    destruct (get "items" d) as [items|]; [|exact Hsame].
    destruct (_traverse_type items p) as [items' e]; simpl.
    eexists; split; [reflexivity|]. split; [|split; [|congruence]].
    + intros k _ _ Hi. apply get_set_other; congruence.
    + intros _; split; apply get_set_other; discriminate.
  - exact Hsame.
Qed.

Lemma node_entries_frame_witness :
  exists d',
    fst (traverse_schema
           (JDict [("type", JStr "array"); ("name", JStr "LineItems");
                   ("items", JStr "string")]) "User") = JDict d'
    /\ get "aliases" d' = None /\ get "name" d' = Some (JStr "LineItems").
Proof.
  destruct (node_entries_frame
              [("type", JStr "array"); ("name", JStr "LineItems");
               ("items", JStr "string")] "User") as (d' & Hd & Hk & Hrec & _).
  exists d'; split; [exact Hd|]. split.
  - exact (proj1 (Hrec ltac:(discriminate))).
  - apply (Hk "name"); discriminate.
Defined.

(** X9: a record whose [fields] is neither a list nor empty ([null], a
    number, a boolean, a string or an object that is not empty) makes the
    run raise [TypeError]; the record has got its alias by then. *)
Theorem fields_not_a_list (d : dict) (p : string) (v : json) :
  get "type" d = Some (JStr "record") ->
  snd (add_alias_to_record d p) = None ->
  get "fields" d = Some v -> (forall fs, v <> JList fs) ->
  fields_empty d = false ->
  traverse_schema (JDict d) p
  = (JDict (fst (add_alias_to_record d p)), Some TypeError).
Proof.
  intros Ht Hok Hf Hl He; rewrite traverse_schema_eq; unfold traverse_schema_body.
  rewrite Ht, String.eqb_refl.
  pose proof (add_alias_to_record_get d p "fields") as Hg.
  destruct (add_alias_to_record d p) as [d1 e]; simpl in *; subst e.
  rewrite Hg by discriminate. unfold fields_empty in He. rewrite Hf in *.
  destruct v as [| | |n|fs|fd]; try reflexivity.
  - destruct n; [discriminate|reflexivity].
  - contradiction (Hl fs); reflexivity.
  - destruct fd; [discriminate|reflexivity].
Qed.

Lemma fields_not_a_list_witness :
  traverse_schema
    (JDict [("type", JStr "record"); ("name", JStr "UserOrder"); ("fields", JNull)])
    "User"
  = (JDict [("type", JStr "record"); ("name", JStr "UserOrder"); ("fields", JNull);
            ("aliases", JList [JStr "order"])], Some TypeError).
Proof.
  apply (fields_not_a_list
           [("type", JStr "record"); ("name", JStr "UserOrder"); ("fields", JNull)]
           "User" JNull eq_refl eq_refl eq_refl); [discriminate|reflexivity].
Defined.

Lemma keys_set_present (k : string) (v w : json) (d : dict) :
  get k d = Some w -> map fst (set k v d) = map fst d.
Proof.
  induction d as [|[k' v'] r IH]; simpl; [discriminate|].
  destruct (k =? k'); [reflexivity|].
  intros H; simpl; rewrite (IH H); reflexivity.
Qed.

Lemma keys_set_absent (k : string) (v : json) (d : dict) :
  get k d = None -> map fst (set k v d) = map fst d ++ [k].
Proof.
  intros H; rewrite (set_absent _ _ _ H), map_app; reflexivity.
Qed.

Lemma keys_add_alias_to_record (d : dict) (p : string) :
  map fst (fst (add_alias_to_record d p))
  = map fst d
      ++ match get "name" d, get "aliases" d with
         | Some (JStr _), None => ["aliases"]
         | _, _ => []
         end.
Proof.
  unfold add_alias_to_record, append_alias.
  destruct (get "name" d) as [[| | |n| |]|]; simpl; try (symmetry; apply app_nil_r).
  - destruct (get "aliases" d) as [[| | | |l|]|] eqn:Ea; simpl;
      try (symmetry; apply app_nil_r).
    + rewrite (keys_set_present _ _ _ _ Ea); symmetry; apply app_nil_r.
    + apply keys_set_absent, Ea.
Qed.

(** X10: the keys of an object after a run are its keys before it, in the
    same order, followed by [aliases] when the object is a record with a
    string [name] and had no [aliases]; this holds for a run that raised as
    well. *)
Theorem keys_after_run (d : dict) (p : string) :
  exists d',
    fst (traverse_schema (JDict d) p) = JDict d'
    /\ map fst d' = map fst d ++ (if new_aliases_key d then ["aliases"] else []).
Proof.
  assert (Hother : get "type" d <> Some (JStr "record") -> new_aliases_key d = false).
  { unfold new_aliases_key; intros H.
    destruct (get "type" d) as [[| | |t| |]|]; try reflexivity.
    destruct (get "name" d) as [[| | |n| |]|]; try reflexivity.
    destruct (get "aliases" d); [reflexivity|].
    destruct (t =? "record") eqn:E; [|reflexivity].
    apply String.eqb_eq in E; congruence. }
  assert (Hsame : get "type" d <> Some (JStr "record") ->
                  exists d', JDict d = JDict d'
                    /\ map fst d' = map fst d
                                      ++ (if new_aliases_key d then ["aliases"] else [])).
  { intros H; rewrite (Hother H); exists d; split; [reflexivity|].
    symmetry; apply app_nil_r. }
  rewrite traverse_schema_eq; unfold traverse_schema_body.
  destruct (get "type" d) as [[| | |t| |]|] eqn:Ht;
    try (apply Hsame; discriminate).
  destruct (t =? "record") eqn:Er; [|destruct (t =? "array") eqn:Ea].
  - apply String.eqb_eq in Er; subst t.
    assert (Hif : (if new_aliases_key d then ["aliases"] else [])
                  = match get "name" d, get "aliases" d with
                    | Some (JStr _), None => ["aliases"]
                    | _, _ => []
                    end).
    { unfold new_aliases_key; rewrite Ht.
      destruct (get "name" d) as [[| | |n| |]|]; try reflexivity.
      destruct (get "aliases" d); reflexivity. }
    rewrite Hif, <- (keys_add_alias_to_record d p).
    destruct (add_alias_to_record d p) as [d1 [e|]]; simpl;
      [exists d1; split; reflexivity|].
    destruct (get "fields" d1) as [[| | |n|fs|fd]|] eqn:Hf;
      try (exists d1; split; reflexivity).
    + destruct n; exists d1; split; reflexivity.
    + destruct (for_each _ fs) as [fs' e]; simpl.
      eexists; split; [reflexivity|apply (keys_set_present _ _ _ _ Hf)].
    + destruct fd; exists d1; split; reflexivity.
  - apply String.eqb_eq in Ea; subst t.
    rewrite Hother by discriminate.
    destruct (get "items" d) as [items|] eqn:Hi;
      [|exists d; split; [reflexivity|symmetry; apply app_nil_r]].
    destruct (_traverse_type items p) as [items' e]; simpl.
    eexists; split; [reflexivity|].
    rewrite (keys_set_present _ _ _ _ Hi); symmetry; apply app_nil_r.
  - apply Hsame. apply String.eqb_neq in Er; congruence.
Qed.

(** ** The prefix and the exceptions *)

Lemma for_each_same_exception (f g : json -> outcome json) (l : list json) :
  (forall x, In x l -> snd (f x) = snd (g x)) ->
  snd (for_each f l) = snd (for_each g l).
Proof.
  induction l as [|x r IH]; simpl; intros H; [reflexivity|].
  pose proof (H x (or_introl eq_refl)) as Hx.
  assert (Hr : snd (for_each f r) = snd (for_each g r))
    by (apply IH; intros y Hy; apply H; right; exact Hy).
  destruct (f x) as [x1 [e1|]], (g x) as [x2 [e2|]]; simpl in *; try discriminate.
  - exact Hx.
  - destruct (for_each f r), (for_each g r); exact Hr.
Qed.

Lemma add_alias_to_record_same_exception (d : dict) (p q : string) :
  snd (add_alias_to_record d p) = snd (add_alias_to_record d q).
Proof.
  unfold add_alias_to_record, append_alias.
  destruct (get "name" d) as [[| | |n| |]|]; try reflexivity.
  destruct (get "aliases" d) as [[| | | |l|]|]; reflexivity.
Qed.

Section TwoPrefixes.
Variables p q : string.

Lemma traverse_type_same_exception (t : json) :
  (forall w, size w <= size t ->
             snd (traverse_schema w p) = snd (traverse_schema w q)) ->
  snd (_traverse_type t p) = snd (_traverse_type t q).
Proof.
  intros IH; rewrite !_traverse_type_eq.
  destruct t as [| | | |l|d]; try reflexivity.
  - pose proof (for_each_same_exception
                  (traverse_member (fun s => traverse_schema s p))
                  (traverse_member (fun s => traverse_schema s q)) l) as H.
    destruct (for_each _ l), (for_each _ l); simpl in *. apply H.
    intros x Hx; destruct x; try reflexivity.
    apply IH. pose proof (size_in _ _ Hx); lia.
  - apply IH; lia.
Qed.

Lemma traverse_field_same_exception (x : json) :
  (forall w, size w < size x ->
             snd (traverse_schema w p) = snd (traverse_schema w q)) ->
  snd (traverse_field_body (fun t => _traverse_type t p) x)
  = snd (traverse_field_body (fun t => _traverse_type t q) x).
Proof.
  intros IH; unfold traverse_field_body.
  destruct (add_alias_to_field x) as [f1 [e|]] eqn:E; [reflexivity|].
  destruct (add_alias_to_field_get x f1 "type" E) as (f & d1 & -> & -> & Hget).
  rewrite Hget by discriminate.
  destruct (get "type" f) as [t|] eqn:Ht; [|reflexivity].
  assert (H : snd (_traverse_type t p) = snd (_traverse_type t q)).
  { apply traverse_type_same_exception; intros w Hw; apply IH.
    pose proof (size_get _ _ _ Ht); lia. }
  destruct (_traverse_type t p), (_traverse_type t q); exact H.
Qed.

Lemma traverse_schema_same_exception (s : json) :
  snd (traverse_schema s p) = snd (traverse_schema s q).
Proof.
  induction s as [s IH] using size_induction.
  rewrite !traverse_schema_eq; unfold traverse_schema_body.
  destruct s as [| | | | |d]; try reflexivity.
  destruct (get "type" d) as [[| | |t| |]|]; try reflexivity.
  destruct (t =? "record").
  - pose proof (add_alias_to_record_same_exception d p q) as He.
    pose proof (add_alias_to_record_get d p "fields") as Hp.
    pose proof (add_alias_to_record_get d q "fields") as Hq.
    destruct (add_alias_to_record d p) as [dp [ep|]],
             (add_alias_to_record d q) as [dq [eq|]];
      simpl in *; try discriminate; [exact He|].
    rewrite Hp, Hq by discriminate.
    destruct (get "fields" d) as [[| | |n|fs|fd]|] eqn:Hf; try reflexivity.
    + destruct n; reflexivity.
    + pose proof (for_each_same_exception
                    (traverse_field_body (fun t => _traverse_type t p))
                    (traverse_field_body (fun t => _traverse_type t q)) fs) as H.
      destruct (for_each _ fs), (for_each _ fs); simpl in *. apply H.
      intros x Hx; apply traverse_field_same_exception; intros w Hw; apply IH.
      pose proof (size_in _ _ Hx); pose proof (size_get _ _ _ Hf); lia.
    + destruct fd; reflexivity.
  - destruct (t =? "array"); [|reflexivity].
    destruct (get "items" d) as [items|] eqn:Hi; [|reflexivity].
    assert (H : snd (_traverse_type items p) = snd (_traverse_type items q)).
    { apply traverse_type_same_exception; intros w Hw; apply IH.
      pose proof (size_get _ _ _ Hi); lia. }
    destruct (_traverse_type items p), (_traverse_type items q); exact H.
Qed.

End TwoPrefixes.

(** X11: the prefix decides nothing but the text of the aliases of records:
    a run raises the same exception, or none, under any two prefixes, and the
    two results are the same tree once the aliases are taken out. *)
Theorem prefix_changes_aliases_only (s : json) (p q : string) :
  snd (add_aliases_to_avro_schema s p) = snd (add_aliases_to_avro_schema s q)
  /\ without_aliases (fst (add_aliases_to_avro_schema s p))
     = without_aliases (fst (add_aliases_to_avro_schema s q)).
Proof.
  unfold add_aliases_to_avro_schema; split.
  - apply traverse_schema_same_exception.
  - rewrite <- (only_aliases_grow_without _ _ (traverse_schema_grows p s)).
    apply only_aliases_grow_without, traverse_schema_grows.
Qed.

(** ** The state at an exception *)

Lemma for_each_stops (body : json -> outcome json) (l : list json) (e : exn) :
  snd (for_each body l) = Some e ->
  exists i x,
    nth_error l i = Some x
    /\ snd (body x) = Some e
    /\ (forall y, In y (firstn i l) -> snd (body y) = None)
    /\ fst (for_each body l)
       = map (fun y => fst (body y)) (firstn i l) ++ fst (body x) :: skipn (S i) l.
Proof.
  induction l as [|y r IH]; simpl; [discriminate|].
  destruct (body y) as [y' [e'|]] eqn:E; simpl.
  - intros [= ->]. exists 0, y; rewrite E; simpl.
    repeat split; try reflexivity. intros z [].
  - destruct (for_each body r) as [r' e']; simpl in *.
    intros H; destruct (IH H) as (i & x & Hi & Hx & Hbefore & Hres).
    exists (S i), x; simpl. rewrite E; simpl. repeat split; try assumption.
    + intros z [<-|Hz]; [rewrite E; reflexivity|apply Hbefore, Hz].
    + rewrite Hres; reflexivity.
Qed.

(** X12: when the loop over the fields of a record raises, the run stops
    there: the fields before the failing one went through the loop body, the
    failing one is as its body left it, and the fields after it are as they
    were. *)
Theorem first_failing_field_stops_run (d : dict) (fs : list json) (p : string)
  (e : exn) :
  get "type" d = Some (JStr "record") -> get "fields" d = Some (JList fs) ->
  snd (add_alias_to_record d p) = None ->
  snd (traverse_schema (JDict d) p) = Some e ->
  exists i x d',
    nth_error fs i = Some x
    /\ snd (traverse_field (fun t => _traverse_type t p) x) = Some e
    /\ (forall y, In y (firstn i fs) ->
                  snd (traverse_field (fun t => _traverse_type t p) y) = None)
    /\ fst (traverse_schema (JDict d) p) = JDict d'
    /\ get "fields" d'
       = Some (JList
                 (map (fun y => fst (traverse_field (fun t => _traverse_type t p) y))
                    (firstn i fs)
                  ++ fst (traverse_field (fun t => _traverse_type t p) x)
                  :: skipn (S i) fs)).
Proof.
  intros Ht Hf Hok; rewrite (traverse_record_eq p d fs Ht Hf).
  destruct (add_alias_to_record d p) as [d1 e1]; simpl in Hok; subst e1.
  pose proof (for_each_stops (traverse_field_body (fun t => _traverse_type t p)) fs e)
    as H.
  destruct (for_each _ fs) as [fs' e']; simpl in *.
  intros ->; destruct (H eq_refl) as (i & x & Hi & Hx & Hbefore & ->).
  exists i, x; eexists. rewrite !traverse_field_eq.
  split; [exact Hi|]. split; [exact Hx|]. split.
  - intros y Hy; rewrite traverse_field_eq; apply Hbefore, Hy.
  - split; [reflexivity|]. rewrite get_set_same. do 3 f_equal.
    apply map_ext; intros y; rewrite traverse_field_eq; reflexivity.
Qed.

Lemma first_failing_field_stops_run_witness :
  exists i x d',
    nth_error [JDict [("name", JStr "orderId"); ("type", JStr "string")];
               JDict [("name", JStr "total")];
               JDict [("name", JStr "paidAt"); ("type", JStr "long")]] i = Some x
    /\ snd (traverse_field (fun t => _traverse_type t "User") x)
       = Some (KeyError "type")
    /\ fst (traverse_schema
              (JDict [("type", JStr "record"); ("name", JStr "UserOrder");
                      ("fields",
                       JList [JDict [("name", JStr "orderId");
                                     ("type", JStr "string")];
                              JDict [("name", JStr "total")];
                              JDict [("name", JStr "paidAt");
                                     ("type", JStr "long")]])]) "User")
       = JDict d'.
Proof.
  destruct (first_failing_field_stops_run
              [("type", JStr "record"); ("name", JStr "UserOrder");
               ("fields",
                JList [JDict [("name", JStr "orderId"); ("type", JStr "string")];
                       JDict [("name", JStr "total")];
                       JDict [("name", JStr "paidAt"); ("type", JStr "long")]])]
              [JDict [("name", JStr "orderId"); ("type", JStr "string")];
               JDict [("name", JStr "total")];
               JDict [("name", JStr "paidAt"); ("type", JStr "long")]]
              "User" (KeyError "type") eq_refl eq_refl eq_refl
              ltac:(vm_compute; reflexivity))
    as (i & x & d' & Hi & Hx & _ & Hd & _).
  exists i, x, d'; auto.
Defined.

(** ** Objects stay objects of Python *)

Lemma unique_keys_list (l : list json) :
  unique_keys (JList l) <-> Forall unique_keys l.
Proof.
  simpl; induction l as [|x r IH]; simpl.
  - split; constructor.
  - split.
    + intros [Hx Hr]; constructor; [exact Hx|apply IH, Hr].
    + intros H; inversion H; subst; split; [assumption|apply IH; assumption].
Qed.

Lemma unique_keys_dict (d : dict) :
  unique_keys (JDict d)
  <-> NoDup (map fst d) /\ Forall (fun kv => unique_keys (snd kv)) d.
Proof.
  simpl. apply and_iff_compat_l.
  induction d as [|kv r IH]; simpl.
  - split; constructor.
  - split.
    + intros [Hx Hr]; constructor; [exact Hx|apply IH, Hr].
    + intros H; inversion H; subst; split; [assumption|apply IH; assumption].
Qed.

Lemma get_none_not_in (k : string) (d : dict) :
  get k d = None -> ~ In k (map fst d).
Proof.
  induction d as [|[k' v] r IH]; simpl; [tauto|].
  destruct (k =? k') eqn:E; [discriminate|].
  apply String.eqb_neq in E. intros H [Hk|Hk]; [congruence|exact (IH H Hk)].
Qed.

Lemma entries_grow_keys (R : json -> json -> Prop) (d d' : dict) :
  entries_grow R d d' -> map fst d' = map fst d.
Proof. induction 1; simpl; congruence. Qed.

(** Growing aliases keeps the keys of every object distinct. *)
Lemma only_aliases_grow_unique (v v' : json) :
  only_aliases_grow v v' -> unique_keys v -> unique_keys v'.
Proof.
  revert v'; induction v as [v IH] using size_induction; intros v' H Hu.
  assert (K : forall d0 d1, entries_grow only_aliases_grow d0 d1 ->
                (forall k w, In (k, w) d0 -> size w < size v) ->
                Forall (fun kv => unique_keys (snd kv)) d0 ->
                Forall (fun kv => unique_keys (snd kv)) d1).
  { induction 1 as [|[k0 v0] r r' _ IHe|k0 v0 v0' r r' Hk Hv _ IHe|l extra r r' _ IHe];
      intros Hsz Hall; inversion Hall; subst; constructor; simpl in *;
      try (apply IHe; [intros k w Hw; apply (Hsz k w); right; exact Hw|assumption]).
    - assumption.
    - apply (IH v0 (Hsz k0 v0 (or_introl eq_refl)) v0' Hv); assumption.
    - apply unique_keys_list, Forall_app; split.
      + apply unique_keys_list; assumption.
      + clear; induction extra; constructor; [exact I|assumption]. }
  inversion H as [u|l l' Hl|d0 d0' Hd|d0 d0' extra Ha Hd]; subst.
  - exact Hu.
  - apply unique_keys_list in Hu. apply unique_keys_list.
    assert (Hsz : forall x, In x l -> size x < size (JList l))
      by (intros x; apply size_in).
    clear H K; revert IH Hsz; generalize (size (JList l)) as n; intros n IH.
    induction Hl as [|x x' r r' Hx _ IHl]; intros Hsz; constructor;
      inversion Hu; subst.
    + apply (IH x (Hsz x (or_introl eq_refl)) x' Hx); assumption.
    + apply IHl; [assumption|]. intros y Hy; apply Hsz; right; exact Hy.
  - apply unique_keys_dict in Hu; destruct Hu as [Hnd Hall].
    apply unique_keys_dict; split.
    + rewrite (entries_grow_keys _ _ _ Hd); exact Hnd.
    + apply (K _ _ Hd); [intros k w; apply size_entry|exact Hall].
  - apply unique_keys_dict in Hu; destruct Hu as [Hnd Hall].
    apply unique_keys_dict; split.
    + rewrite map_app, (entries_grow_keys _ _ _ Hd); simpl.
      apply NoDup_app; [exact Hnd|repeat constructor; simpl; tauto|].
      intros k Hk [<-|[]]. exact (get_none_not_in _ _ Ha Hk).
    + apply Forall_app; split.
      * apply (K _ _ Hd); [intros k w; apply size_entry|exact Hall].
      * constructor; [|constructor]. simpl.
        apply unique_keys_list. clear; induction extra; constructor; [exact I|assumption].
Qed.

(** X13: a run keeps the keys of every object of the tree distinct, whether
    it raises or not: the tree it leaves is one a Python program can hold,
    and [json.dump] writes no key twice. *)
Theorem run_keeps_keys_unique (s : json) (p : string) :
  unique_keys s -> unique_keys (fst (add_aliases_to_avro_schema s p)).
Proof.
  apply only_aliases_grow_unique, traverse_schema_grows.
Qed.

Lemma run_keeps_keys_unique_witness :
  unique_keys (fst (add_aliases_to_avro_schema order_schema "User")).
Proof.
  apply run_keeps_keys_unique.
  simpl; repeat (split || constructor || (simpl; intuition discriminate)).
Defined.

(** ** Runs compose *)

(** X14: the run is local.  When a run on a schema raises nothing, the schema
    node at any place of it is afterwards what a run on that node alone
    returns, and that run raises nothing either: how a nested schema is
    aliased does not depend on what is around it. *)
Theorem run_is_local (s : json) (pi : path) (w : json) (p : string) :
  schema_at s pi w ->
  snd (add_aliases_to_avro_schema s p) = None ->
  snd (add_aliases_to_avro_schema w p) = None
  /\ node_at pi (fst (add_aliases_to_avro_schema s p))
     = Some (fst (add_aliases_to_avro_schema w p)).
Proof.
  unfold add_aliases_to_avro_schema; intros Hat Hok.
  destruct (traversal_local p s pi w Hat Hok) as (Hw & Hnode & _); auto.
Qed.

Lemma run_is_local_witness :
  node_at [Key "fields"; Index 1; Key "type"; Key "items"]
    (fst (add_aliases_to_avro_schema order_schema "User"))
  = Some (fst (add_aliases_to_avro_schema
                 (JDict [("type", JStr "record"); ("name", JStr "LineItem");
                         ("fields",
                          JList [JDict [("name", JStr "skuCode");
                                        ("type", JStr "string")]])])
                 "User")).
Proof.
  apply (run_is_local order_schema); [|vm_compute; reflexivity].
  eapply (sa_field _ _ 1); [reflexivity..|].
  apply ta_dict. eapply sa_items; [reflexivity..|].
  apply ta_dict, sa_here.
Defined.

Section ManyRuns.
Variable p : string.

#[local] Abbreviation field_body :=
  (traverse_field_body (fun t => _traverse_type t p)).

Lemma record_at_after_run (s : json) (pi : path) (d : dict) (name : string) :
  snd (traverse_schema s p) = None ->
  record_at s pi d -> get "name" d = Some (JStr name) ->
  exists d',
    record_at (fst (traverse_schema s p)) pi d'
    /\ get "name" d' = Some (JStr name)
    /\ alias_list d'
       = alias_list d ++ [JStr (to_snake_case (removeprefix p name))].
Proof.
  intros Hok [Hat Ht] Hn.
  destruct (traversal_local p s pi _ Hat Hok) as (Hw & _ & Hat1).
  destruct (traverse_record_aliases p d name Ht Hn Hw) as (d' & Hd' & Ht' & Hn' & Ha').
  rewrite Hd' in Hat1. exists d'; split; [split; assumption|]. split; [exact Hn'|].
  unfold alias_list at 1; rewrite Ha'; reflexivity.
Qed.

Lemma field_at_after_run (s : json) (pi : path) (f : dict) :
  snd (traverse_schema s p) = None ->
  field_at s pi f ->
  exists name f',
    get "name" f = Some (JStr name)
    /\ field_at (fst (traverse_schema s p)) pi f'
    /\ get "name" f' = Some (JStr name)
    /\ alias_list f' = alias_list f ++ [JStr (to_snake_case name)].
Proof.
  intros Hok (pi0 & d & fs & i & [Hat Ht] & Hf & Hi & ->).
  destruct (traversal_local p s pi0 _ Hat Hok) as (Hw & _ & Hat1).
  destruct (traverse_record_fields p d fs Ht Hf Hw) as (d' & Hd' & Ht' & Hf' & Hall).
  rewrite Hd' in Hat1.
  destruct (traverse_field_aliases p f (Hall _ (nth_error_In _ _ Hi)))
    as (name & f' & Hres & Hn & Hn' & Ha').
  exists name, f'. split; [exact Hn|]. split; [|split; [exact Hn'|]].
  - exists pi0, d', (map (fun x => fst (field_body x)) fs), i.
    split; [split; assumption|]. split; [exact Hf'|]. split; [|reflexivity].
    rewrite <- Hres. apply (map_nth_error (fun x => fst (field_body x)) _ _ Hi).
  - unfold alias_list at 1; rewrite Ha'; reflexivity.
Qed.

Lemma run_times_succ (n : nat) (s : json) :
  snd (traverse_schema s p) = None ->
  run_times (S n) s p = run_times n (fst (traverse_schema s p)) p.
Proof.
  intros Hok; simpl; unfold add_aliases_to_avro_schema.
  destruct (traverse_schema s p) as [s1 e]; simpl in *; subst e; reflexivity.
Qed.

Lemma aliases_after_runs (n : nat) :
  forall s, snd (traverse_schema s p) = None ->
  snd (run_times (S n) s p) = None
  /\ (forall pi d name,
        record_at s pi d -> get "name" d = Some (JStr name) ->
        aliases_at pi (fst (run_times (S n) s p))
        = Some (alias_list d
                  ++ repeat (JStr (to_snake_case (removeprefix p name))) (S n)))
  /\ (forall pi f,
        field_at s pi f ->
        exists name,
          get "name" f = Some (JStr name)
          /\ aliases_at pi (fst (run_times (S n) s p))
             = Some (alias_list f ++ repeat (JStr (to_snake_case name)) (S n))).
Proof.
  induction n as [|n IH]; intros s Hok; rewrite (run_times_succ _ s Hok).
  - simpl. split; [reflexivity|]. split.
    + intros pi d name Hat Hn.
      apply (record_aliases_after_runs p s pi d name Hok Hat Hn).
    + intros pi f Hat.
      destruct (field_aliases_after_runs p s pi f Hok Hat) as (name & Hn & Ha & _).
      exists name; auto.
  - destruct (IH _ (second_run_ok p s Hok)) as (Hok' & Hrec & Hfld).
    split; [exact Hok'|]. split.
    + intros pi d name Hat Hn.
      destruct (record_at_after_run s pi d name Hok Hat Hn) as (d' & Hat' & Hn' & Hl).
      rewrite (Hrec pi d' name Hat' Hn'), Hl, <- app_assoc; reflexivity.
    + intros pi f Hat.
      destruct (field_at_after_run s pi f Hok Hat) as (name & f' & Hn & Hat' & Hn' & Hl).
      destruct (Hfld pi f' Hat') as (name' & Hn2 & Ha).
      assert (name' = name) by congruence; subst name'.
      exists name; split; [exact Hn|].
      rewrite Ha, Hl, <- app_assoc; reflexivity.
Qed.

End ManyRuns.

(** X15: alias lists grow without bound.  When one run on a schema raises
    nothing, any number of runs one after the other raise nothing, and after
    [n] of them, [n] at least 1, the alias list of every record with a name
    and of every field of the schema is the list it had followed by [n]
    copies of the same alias. *)
Theorem aliases_after_n_runs (s : json) (p : string) (n : nat) :
  snd (add_aliases_to_avro_schema s p) = None ->
  snd (run_times (S n) s p) = None
  /\ (forall pi d name,
        record_at s pi d -> get "name" d = Some (JStr name) ->
        aliases_at pi (fst (run_times (S n) s p))
        = Some (alias_list d
                  ++ repeat (JStr (to_snake_case (removeprefix p name))) (S n)))
  /\ (forall pi f,
        field_at s pi f ->
        exists name,
          get "name" f = Some (JStr name)
          /\ aliases_at pi (fst (run_times (S n) s p))
             = Some (alias_list f ++ repeat (JStr (to_snake_case name)) (S n))).
Proof. intros Hok; apply aliases_after_runs, Hok. Qed.

Lemma aliases_after_n_runs_witness :
  aliases_at [] (fst (run_times 3 order_schema "User"))
  = Some [JStr "order"; JStr "order"; JStr "order"].
Proof.
  destruct (aliases_after_n_runs order_schema "User" 2
              ltac:(vm_compute; reflexivity)) as (_ & Hrec & _).
  exact (Hrec [] _ "UserOrder" (conj (sa_here order_schema) eq_refl) eq_refl).
Defined.
